(** * RAVL tree: a rank-augmented AVL tree (src/RAVL_tree.c)

    A shallow embedding of the C module.  Nodes carry the cached [height]
    and [size] fields exactly as the C struct does, so a tree whose cached
    fields are stale or wrong is representable and the invariants are
    separate predicates.

    Conventions of the embedding:
    - a pointer to a node is the subtree rooted at that node, [NULL] is the
      null pointer;
    - the C [int] fields and keys are integers of [Z]; keys are only compared,
      heights and sizes are only incremented, and the embedding covers the
      executions in which no [int] overflows (fewer than 2^31 nodes);
    - [void *value] is an address;
    - [malloc] in [createNode] succeeds;
    - in-place mutation of a node is the construction of the updated node. *)

From Stdlib Require Import ZArith List Lia Bool Sorted.
Import ListNotations.
Local Open Scope Z_scope.

(** ** Data model *)

Definition void_ptr := Z.

Inductive RAVL_Node : Type :=
| NULL : RAVL_Node
| Node (key : Z) (value : void_ptr) (height size : Z)
       (left right : RAVL_Node) : RAVL_Node.

(** [node->left] and [node->right]; only read on a node that is not null. *)
Definition node_left (node : RAVL_Node) : RAVL_Node :=
  match node with NULL => NULL | Node _ _ _ _ l _ => l end.

Definition node_right (node : RAVL_Node) : RAVL_Node :=
  match node with NULL => NULL | Node _ _ _ _ _ r => r end.

(** ** Helper functions (lines 13-208) *)

Definition height (node : RAVL_Node) : Z :=
  match node with
  | NULL => 0
  | Node _ _ h _ _ _ => h
  end.

Definition size (node : RAVL_Node) : Z :=
  match node with
  | NULL => 0
  | Node _ _ _ s _ _ => s
  end.

Definition updateHeight (node : RAVL_Node) : RAVL_Node :=
  match node with
  | NULL => NULL
  | Node k v _ s l r =>
      let right_height := match r with NULL => 0 | Node _ _ h _ _ _ => h end in
      let left_height := match l with NULL => 0 | Node _ _ h _ _ _ => h end in
      if left_height >? right_height
      then Node k v (left_height + 1) s l r
      else Node k v (right_height + 1) s l r
  end.

Definition updateSize (node : RAVL_Node) : RAVL_Node :=
  match node with
  | NULL => NULL
  | Node k v h _ l r =>
      let right_size := match r with NULL => 0 | Node _ _ _ s _ _ => s end in
      let left_size := match l with NULL => 0 | Node _ _ _ s _ _ => s end in
      Node k v h (left_size + right_size + 1) l r
  end.

Definition balanceFactor (node : RAVL_Node) : Z :=
  match node with
  | NULL => 0
  | Node _ _ _ _ l r =>
      let right_height := match r with NULL => 0 | _ => height r end in
      let left_height := match l with NULL => 0 | _ => height l end in
      left_height - right_height
  end.

(** [updateHeight(node); updateSize(node);], the pair of calls that every
    rotation, [insert] and [delete] make on a node they have rewired. *)
Definition update (node : RAVL_Node) : RAVL_Node :=
  updateSize (updateHeight node).

Definition rightRotation (node : RAVL_Node) : RAVL_Node :=
  match node with
  | Node k v h s (Node lk lv lh ls ll lr) r =>
      (* new_head = node->left; shift = new_head->right;
         node->left = shift; new_head->right = node *)
      let node' := update (Node k v h s lr r) in
      update (Node lk lv lh ls ll node')
  | _ => node
  end.

Definition leftRotation (node : RAVL_Node) : RAVL_Node :=
  match node with
  | Node k v h s l (Node rk rv rh rs rl rr) =>
      let node' := update (Node k v h s l rl) in
      update (Node rk rv rh rs node' rr)
  | _ => node
  end.

Definition rightLeftRotation (node : RAVL_Node) : RAVL_Node :=
  match node with
  | Node k v h s l (Node _ _ _ _ _ _ as r) =>
      leftRotation (Node k v h s l (rightRotation r))
  | _ => node
  end.

Definition leftRightRotation (node : RAVL_Node) : RAVL_Node :=
  match node with
  | Node k v h s (Node _ _ _ _ _ _ as l) r =>
      rightRotation (Node k v h s (leftRotation l) r)
  | _ => node
  end.

(** The [while (successor->left != NULL)] loop of [successor]. *)
Fixpoint successor_loop (successor : RAVL_Node) : RAVL_Node :=
  match successor with
  | NULL => NULL
  | Node _ _ _ _ NULL _ => successor
  | Node _ _ _ _ l _ => successor_loop l
  end.

Definition successor (node : RAVL_Node) : RAVL_Node :=
  match node with
  | NULL => NULL
  | Node _ _ _ _ _ NULL => NULL
  | Node _ _ _ _ _ r => successor_loop r
  end.

Definition createNode (key : Z) (value : void_ptr) : RAVL_Node :=
  Node key value 1 1 NULL NULL.

(** ** Required functions (lines 238-374) *)

Fixpoint search (node : RAVL_Node) (key : Z) : RAVL_Node :=
  match node with
  | NULL => NULL
  | Node k _ _ _ l r =>
      if k =? key then node
      else if k <? key then search r key
      else search l key
  end.

(** Lines 266-287 of [insert]: the rebalancing of a node whose child was
    just rewired.  [node->left->key] and [node->right->key] are read without
    a null check; the result is [None] where C would dereference a null
    pointer. *)
Definition insert_balance (node : RAVL_Node) (key : Z) : option RAVL_Node :=
  let balance := balanceFactor node in
  if balance >? 1 then
    match node_left node with
    | Node lk _ _ _ _ _ =>
        if key >? lk then Some (leftRightRotation node)
        else Some (rightRotation node)
    | NULL => None
    end
  else if balance <? -1 then
    match node_right node with
    | Node rk _ _ _ _ _ =>
        if key <? rk then Some (rightLeftRotation node)
        else Some (leftRotation node)
    | NULL => None
    end
  else Some node.

Fixpoint insert (node : RAVL_Node) (key : Z) (value : void_ptr)
  : option RAVL_Node :=
  match node with
  | NULL => Some (createNode key value)
  | Node k v h s l r =>
      if key <? k then
        match insert l key value with
        | Some l' => insert_balance (update (Node k v h s l' r)) key
        | None => None
        end
      else if key >? k then
        match insert r key value with
        | Some r' => insert_balance (update (Node k v h s l r')) key
        | None => None
        end
      else Some node
  end.

(** Lines 323-344 of [delete]: update the node, then rebalance it.  The
    conditions are those of the source, in its order; [node] may be [NULL]
    here (a leaf was removed), in which case the balance is 0 and no child
    is read. *)
Definition delete_balance (node : RAVL_Node) : RAVL_Node :=
  let node := update node in
  let balance := balanceFactor node in
  if (balance >? 1) && (balanceFactor (node_left node) >=? 0) then
    rightRotation node
  else if (balance >? 1) && (balanceFactor (node_left node) <? 0) then
    leftRightRotation node
  else if (balance <? -1) && (balanceFactor (node_right node) >=? 0) then
    leftRotation node
  else if (balance <? -1) && (balanceFactor (node_right node) <? 0) then
    rightLeftRotation node
  else node.

(** In the two-children case only the key of the successor is copied into
    the node ([node->key = temp->key]); the node keeps its own value.  The
    successor of a node with a right child is never null (lemma
    [successor_two_children]), so the [NULL] branch below is never taken. *)
Fixpoint delete (node : RAVL_Node) (key : Z) : RAVL_Node :=
  match node with
  | NULL => NULL
  | Node k v h s l r =>
      if key <? k then
        delete_balance (Node k v h s (delete l key) r)
      else if key >? k then
        delete_balance (Node k v h s l (delete r key))
      else
        match l, r with
        | NULL, NULL => delete_balance NULL
        | NULL, Node _ _ _ _ _ _ => delete_balance r
        | Node _ _ _ _ _ _, NULL => delete_balance l
        | Node _ _ _ _ _ _, Node _ _ _ _ _ _ =>
            match successor node with
            | Node tk _ _ _ _ _ =>
                delete_balance (Node tk v h s l (delete r tk))
            | NULL => node
            end
        end
  end.

Fixpoint findRank (node : RAVL_Node) (rank : Z) : RAVL_Node :=
  match node with
  | NULL => NULL
  | Node _ _ _ _ l r =>
      let r0 := size l + 1 in
      if r0 =? rank then node
      else if rank <? r0 then findRank l rank
      else findRank r (rank - r0)
  end.

Section Rank.
(** [NOTIN] is a macro of RAVL_tree.h, which is not part of the sources at
    hand; it is a parameter of [rank]. *)
Variable NOTIN : Z.

Fixpoint rank (node : RAVL_Node) (key : Z) : Z :=
  match node with
  | NULL => NOTIN
  | Node k _ _ _ l r =>
      if k =? key then size l + 1
      else if key >? k then size l + 1 + rank r key
      else rank l key
  end.
End Rank.

(** ** Sequences of operations *)

Inductive operation : Type :=
| Insert (key : Z) (value : void_ptr)
| Delete (key : Z).

Definition apply_operation (root : RAVL_Node) (o : operation)
  : option RAVL_Node :=
  match o with
  | Insert k v => insert root k v
  | Delete k => Some (delete root k)
  end.

(** The caller's loop [root = insert(root, ...)] / [root = delete(root, ...)]. *)
Fixpoint run (ops : list operation) (root : RAVL_Node) : option RAVL_Node :=
  match ops with
  | [] => Some root
  | o :: rest =>
      match apply_operation root o with
      | Some root' => run rest root'
      | None => None
      end
  end.

(** ** The data-model invariants *)

(** The keys of a tree, left to right. *)
Fixpoint keys (node : RAVL_Node) : list Z :=
  match node with
  | NULL => []
  | Node k _ _ _ l r => keys l ++ k :: keys r
  end.

Definition node_key (node : RAVL_Node) : option Z :=
  match node with
  | NULL => None
  | Node k _ _ _ _ _ => Some k
  end.

(** Invariant 1: at every node, the keys of the left subtree are smaller
    than the node's key and those of the right subtree are greater. *)
Fixpoint bst (node : RAVL_Node) : Prop :=
  match node with
  | NULL => True
  | Node k _ _ _ l r =>
      Forall (fun x => x < k) (keys l) /\
      Forall (fun x => k < x) (keys r) /\
      bst l /\ bst r
  end.

(** Invariant 2: at every node the balance factor is -1, 0 or 1. *)
Fixpoint balanced (node : RAVL_Node) : Prop :=
  match node with
  | NULL => True
  | Node _ _ _ _ l r =>
      Z.abs (balanceFactor node) <= 1 /\ balanced l /\ balanced r
  end.

(** Invariants 3 and 4: at every node the cached size and height are those
    computed from the children, an absent child counting for 0. *)
Fixpoint augmented (node : RAVL_Node) : Prop :=
  match node with
  | NULL => True
  | Node _ _ h s l r =>
      s = 1 + size l + size r /\
      h = 1 + Z.max (height l) (height r) /\
      augmented l /\ augmented r
  end.

Definition RAVL_invariant (root : RAVL_Node) : Prop :=
  bst root /\ balanced root /\ augmented root.

(** Insertion of a key in a sorted list without duplicates: what [insert]
    does to the sequence of keys. *)
Fixpoint ins (k : Z) (l : list Z) : list Z :=
  match l with
  | [] => [k]
  | x :: xs =>
      if k <? x then k :: l
      else if x <? k then x :: ins k xs
      else l
  end.

Abbreviation sorted := (StronglySorted Z.lt).
Abbreviation del := (remove Z.eq_dec).

(** What [insert] guarantees when it returns a tree one level higher than a
    non-empty tree it was given: no rotation took place at the root, and the
    root leans to the side [key] went to. *)
Definition grew_on (key : Z) (node node' : RAVL_Node) : Prop :=
  height node' = height node + 1 -> node <> NULL ->
  exists k, node_key node' = Some k /\
            ((key < k /\ balanceFactor node' = 1) \/
             (k < key /\ balanceFactor node' = -1)).

(** ** Bindings, diagnostics and the list model of a run *)

(** The key-value pairs of a tree, left to right. *)
Fixpoint entries (node : RAVL_Node) : list (Z * void_ptr) :=
  match node with
  | NULL => []
  | Node k v _ _ l r => entries l ++ (k, v) :: entries r
  end.

Definition node_entry (node : RAVL_Node) : option (Z * void_ptr) :=
  match node with
  | NULL => None
  | Node k v _ _ _ _ => Some (k, v)
  end.

(** One call of [printf] in [printTreeInorder_] (line 218): the width of the
    indentation and the three integers printed after it. *)
Record print_line : Type := Line {
  line_offset : Z;
  line_key : Z;
  line_height : Z;
  line_size : Z
}.

(** [printTreeInorder_] (lines 214-220) as the sequence of its [printf]
    calls: the right subtree first, then the node, then the left subtree. *)
Fixpoint printTreeInorder_ (node : RAVL_Node) (offset : Z) : list print_line :=
  match node with
  | NULL => []
  | Node k _ h s l r =>
      printTreeInorder_ r (offset + 1)
      ++ Line offset k h s :: printTreeInorder_ l (offset + 1)
  end.

Definition printTreeInorder (node : RAVL_Node) : list print_line :=
  printTreeInorder_ node 0.

(** What one operation does to a sorted list of keys. *)
Definition apply_keys (l : list Z) (o : operation) : list Z :=
  match o with
  | Insert k _ => ins k l
  | Delete k => del k l
  end.

(** The number of keys of a list that are smaller than [key]. *)
Definition count_below (key : Z) (l : list Z) : Z :=
  Z.of_nat (length (filter (fun x => x <? key) l)).

(** The number of nodes on the longest path from a node down to a leaf. *)
Fixpoint longest_path (node : RAVL_Node) : Z :=
  match node with
  | NULL => 0
  | Node _ _ _ _ l r => 1 + Z.max (longest_path l) (longest_path r)
  end.

(** The key whose binding [delete root key] rewrites besides removing that of
    [key]: the key of the successor, when the node of [key] has two
    children. *)
Definition rebound_key (root : RAVL_Node) (key : Z) : option Z :=
  match search root key with
  | Node _ _ _ _ (Node _ _ _ _ _ _) (Node _ _ _ _ _ _) as node =>
      node_key (successor node)
  | _ => None
  end.

(** ** Example trees *)

(** Keys 10, 20, 30 inserted in this order (one left rotation). *)
Definition tree_10_20_30 : RAVL_Node :=
  Node 20 0 2 3 (Node 10 0 1 1 NULL NULL) (Node 30 0 1 1 NULL NULL).

(** Keys 10, 5, 20, 15 inserted in this order (no rotation). *)
Definition tree_right_left_heavy : RAVL_Node :=
  Node 10 0 3 4 (Node 5 0 1 1 NULL NULL)
       (Node 20 0 2 2 (Node 15 0 1 1 NULL NULL) NULL).

(** Keys 10, 5, 20, 3, 15, 30, 40 inserted in this order (no rotation). *)
Definition tree_right_right_heavy : RAVL_Node :=
  Node 10 0 4 7
       (Node 5 0 2 2 (Node 3 0 1 1 NULL NULL) NULL)
       (Node 20 0 3 4 (Node 15 0 1 1 NULL NULL)
             (Node 30 0 2 2 NULL (Node 40 0 1 1 NULL NULL))).

Ltac check_invariant :=
  unfold RAVL_invariant; cbn; repeat split; repeat constructor;
  try reflexivity; try lia.

Ltac absent_key :=
  cbn; intros Hin;
  repeat match goal with
         | H : _ \/ _ |- _ => destruct H
         end; (discriminate || contradiction).

(** ** Sorted lists of keys *)

Section SortedKeys.

Lemma sorted_app (A B : list Z) (k : Z) :
  sorted (A ++ k :: B) <->
  sorted A /\ sorted B /\
  Forall (fun x => x < k) A /\ Forall (fun x => k < x) B.
Proof.
  induction A as [|a A IH]; simpl.
  - split.
    + intros H. inversion H; subst. repeat split; auto; constructor.
    + intros (_ & HB & _ & Hk). constructor; assumption.
  - split.
    + intros H. inversion H as [|? ? HS HF]; subst.
      apply IH in HS. destruct HS as (HA & HB & HAk & HkB).
      apply Forall_app in HF. destruct HF as [HaA HaB].
      inversion HaB; subst.
      repeat split; auto; constructor; auto.
    + intros (HA & HB & HAk & HkB).
      inversion HA; subst. inversion HAk; subst.
      constructor.
      * apply IH. repeat split; assumption.
      * apply Forall_app. split; [assumption|].
        constructor; [assumption|].
        eapply Forall_impl; [|exact HkB]. simpl. intros. lia.
Qed.

Lemma Forall_ins (P : Z -> Prop) (k : Z) (l : list Z) :
  P k -> Forall P l -> Forall P (ins k l).
Proof.
  intros Hk. induction 1 as [|x xs Hx Hxs IH]; simpl.
  - constructor; auto.
  - destruct (k <? x); [|destruct (x <? k)]; repeat constructor; auto.
Qed.

Lemma sorted_ins (k : Z) (l : list Z) : sorted l -> sorted (ins k l).
Proof.
  induction 1 as [|x xs Hs IH Hx]; simpl.
  - repeat constructor.
  - destruct (Z.ltb_spec k x); [|destruct (Z.ltb_spec x k)].
    + constructor; [constructor; assumption|].
      constructor; [assumption|].
      eapply Forall_impl; [|exact Hx]. simpl. intros. lia.
    + constructor; [assumption|]. apply Forall_ins; assumption.
    + constructor; assumption.
Qed.

Lemma in_ins (k x : Z) (l : list Z) :
  In x (ins k l) <-> x = k \/ In x l.
Proof.
  induction l as [|y ys IH]; simpl.
  - intuition congruence.
  - destruct (Z.ltb_spec k y); [|destruct (Z.ltb_spec y k)]; simpl.
    + intuition congruence.
    + rewrite IH. intuition congruence.
    + assert (k = y) by lia. intuition congruence.
Qed.

Lemma ins_present (k : Z) (l : list Z) :
  sorted l -> In k l -> ins k l = l.
Proof.
  induction 1 as [|x xs Hs IH Hx]; simpl; [tauto|].
  intros [->|Hin].
  - rewrite Z.ltb_irrefl. reflexivity.
  - assert (x < k) by (rewrite Forall_forall in Hx; auto).
    destruct (Z.ltb_spec k x); [lia|].
    destruct (Z.ltb_spec x k); [|lia].
    rewrite IH; auto.
Qed.

Lemma length_ins_absent (k : Z) (l : list Z) :
  ~ In k l -> length (ins k l) = S (length l).
Proof.
  induction l as [|x xs IH]; simpl; [reflexivity|].
  intros Hn.
  destruct (Z.ltb_spec k x); [reflexivity|].
  destruct (Z.ltb_spec x k); simpl.
  - rewrite IH; tauto.
  - exfalso. apply Hn. left. lia.
Qed.

Lemma ins_app_left (k k0 : Z) (A B : list Z) :
  k < k0 -> ins k (A ++ k0 :: B) = ins k A ++ k0 :: B.
Proof.
  intros Hlt. induction A as [|a A IH]; simpl.
  - destruct (Z.ltb_spec k k0); [reflexivity|lia].
  - destruct (k <? a); [reflexivity|].
    destruct (a <? k); [|reflexivity].
    rewrite IH. reflexivity.
Qed.

Lemma ins_app_right (k k0 : Z) (A B : list Z) :
  k0 < k -> Forall (fun x => x < k0) A ->
  ins k (A ++ k0 :: B) = A ++ k0 :: ins k B.
Proof.
  intros Hlt. induction 1 as [|a A Ha HA IH]; simpl.
  - destruct (Z.ltb_spec k k0); [lia|].
    destruct (Z.ltb_spec k0 k); [reflexivity|lia].
  - destruct (Z.ltb_spec k a); [lia|].
    destruct (Z.ltb_spec a k); [|lia].
    rewrite IH. reflexivity.
Qed.

Lemma ins_app_here (k : Z) (A B : list Z) :
  Forall (fun x => x < k) A -> ins k (A ++ k :: B) = A ++ k :: B.
Proof.
  induction 1 as [|a A Ha HA IH]; simpl.
  - rewrite Z.ltb_irrefl. reflexivity.
  - destruct (Z.ltb_spec k a); [lia|].
    destruct (Z.ltb_spec a k); [|lia].
    rewrite IH. reflexivity.
Qed.

Lemma del_cons_eq (k : Z) (l : list Z) : del k (k :: l) = del k l.
Proof. simpl. destruct (Z.eq_dec k k); [reflexivity|contradiction]. Qed.

Lemma del_cons_neq (k x : Z) (l : list Z) :
  k <> x -> del k (x :: l) = x :: del k l.
Proof. intros. simpl. destruct (Z.eq_dec k x); [contradiction|reflexivity]. Qed.

Lemma del_absent (k : Z) (l : list Z) : ~ In k l -> del k l = l.
Proof.
  induction l as [|x xs IH]; simpl; [reflexivity|].
  intros Hn. destruct (Z.eq_dec k x); [exfalso; auto|].
  rewrite IH; auto.
Qed.

Lemma del_app (k : Z) (A B : list Z) : del k (A ++ B) = del k A ++ del k B.
Proof.
  induction A as [|a A IH]; simpl; [reflexivity|].
  destruct (Z.eq_dec k a); [assumption|]. simpl. rewrite IH. reflexivity.
Qed.

Lemma in_del (k x : Z) (l : list Z) : In x (del k l) <-> In x l /\ x <> k.
Proof.
  induction l as [|y ys IH]; simpl; [tauto|].
  destruct (Z.eq_dec k y); simpl; rewrite IH; intuition congruence.
Qed.

Lemma Forall_del (P : Z -> Prop) (k : Z) (l : list Z) :
  Forall P l -> Forall P (del k l).
Proof.
  rewrite !Forall_forall. intros H x Hx. apply in_del in Hx. apply H, Hx.
Qed.

Lemma sorted_del (k : Z) (l : list Z) : sorted l -> sorted (del k l).
Proof.
  induction 1 as [|x xs Hs IH Hx]; simpl; [constructor|].
  destruct (Z.eq_dec k x); [assumption|].
  constructor; [assumption|]. apply Forall_del, Hx.
Qed.

Lemma del_ins (k : Z) (l : list Z) : ~ In k l -> del k (ins k l) = l.
Proof.
  induction l as [|x xs IH]; simpl; intros Hn.
  - destruct (Z.eq_dec k k); [reflexivity|contradiction].
  - destruct (Z.ltb_spec k x); [|destruct (Z.ltb_spec x k)].
    + rewrite del_cons_eq. apply del_absent. simpl. exact Hn.
    + rewrite del_cons_neq by lia. rewrite IH; tauto.
    + exfalso. apply Hn. left. lia.
Qed.

Lemma length_del_present (k : Z) (l : list Z) :
  sorted l -> In k l -> S (length (del k l)) = length l.
Proof.
  induction 1 as [|x xs Hs IH Hx]; simpl; [tauto|].
  intros Hin. destruct (Z.eq_dec k x) as [->|Hne].
  - rewrite del_absent; [reflexivity|].
    intros Hc. rewrite Forall_forall in Hx. apply Hx in Hc. lia.
  - simpl. rewrite IH; [reflexivity|]. destruct Hin; congruence.
Qed.

Lemma sorted_head_absent (k : Z) (l : list Z) :
  sorted (k :: l) -> ~ In k l.
Proof.
  intros H Hin. inversion H as [|? ? _ HF]; subst.
  rewrite Forall_forall in HF. apply HF in Hin. lia.
Qed.

End SortedKeys.

(** ** Updating and rotating nodes *)

Section Rotations.

Lemma update_Node k v h s l r :
  update (Node k v h s l r) =
  Node k v (1 + Z.max (height l) (height r)) (1 + size l + size r) l r.
Proof.
  unfold update, updateHeight.
  fold (height l) (height r).
  destruct (Z.gtb_spec (height l) (height r)); unfold updateSize;
    fold (size l) (size r); f_equal; lia.
Qed.

Lemma update_NULL : update NULL = NULL.
Proof. reflexivity. Qed.

Lemma balanceFactor_Node k v h s l r :
  balanceFactor (Node k v h s l r) = height l - height r.
Proof. destruct l, r; reflexivity. Qed.

Lemma keys_update node : keys (update node) = keys node.
Proof. destruct node; [reflexivity|]. rewrite update_Node. reflexivity. Qed.

Lemma keys_rightRotation node : keys (rightRotation node) = keys node.
Proof.
  destruct node as [|k v h s [|lk lv lh ls ll lr] r]; try reflexivity.
  unfold rightRotation. rewrite !update_Node. simpl.
  rewrite <- app_assoc. reflexivity.
Qed.

Lemma keys_leftRotation node : keys (leftRotation node) = keys node.
Proof.
  destruct node as [|k v h s l [|rk rv rh rs rl rr]]; try reflexivity.
  unfold leftRotation. rewrite !update_Node. simpl.
  rewrite <- app_assoc. reflexivity.
Qed.

Lemma keys_rightLeftRotation node : keys (rightLeftRotation node) = keys node.
Proof.
  destruct node as [|k v h s l [|rk rv rh rs rl rr]]; try reflexivity.
  unfold rightLeftRotation. rewrite keys_leftRotation.
  cbn [keys]. rewrite keys_rightRotation. reflexivity.
Qed.

Lemma keys_leftRightRotation node : keys (leftRightRotation node) = keys node.
Proof.
  destruct node as [|k v h s [|lk lv lh ls ll lr] r]; try reflexivity.
  unfold leftRightRotation. rewrite keys_rightRotation.
  cbn [keys]. rewrite keys_leftRotation. reflexivity.
Qed.

(** A node whose children carry exact heights and sizes is exact once it
    has been updated. *)
Lemma augmented_update node :
  augmented (node_left node) -> augmented (node_right node) ->
  augmented (update node).
Proof.
  destruct node as [|k v h s l r]; [constructor|].
  simpl. intros Hl Hr. rewrite update_Node. simpl. auto.
Qed.

Lemma augmented_children node :
  augmented node ->
  augmented (node_left node) /\ augmented (node_right node).
Proof. destruct node; simpl; tauto. Qed.

Lemma augmented_rightRotation node :
  augmented node -> augmented (rightRotation node).
Proof.
  destruct node as [|k v h s [|lk lv lh ls ll lr] r]; auto.
  intros (_ & _ & (_ & _ & Hll & Hlr) & Hr).
  unfold rightRotation.
  apply augmented_update; [exact Hll|].
  apply augmented_update; assumption.
Qed.

Lemma augmented_leftRotation node :
  augmented node -> augmented (leftRotation node).
Proof.
  destruct node as [|k v h s l [|rk rv rh rs rl rr]]; auto.
  intros (_ & _ & Hl & (_ & _ & Hrl & Hrr)).
  unfold leftRotation.
  apply augmented_update; [|exact Hrr].
  apply augmented_update; assumption.
Qed.

Lemma rightRotation_Node k v h s l r :
  rightRotation (Node k v h s l r) <> NULL.
Proof.
  destruct l; unfold rightRotation; [|rewrite (update_Node _ _ _ _ l1)];
    discriminate.
Qed.

Lemma leftRotation_Node k v h s l r :
  leftRotation (Node k v h s l r) <> NULL.
Proof.
  destruct r; unfold leftRotation; [|rewrite (update_Node _ _ _ _ _ r2)];
    discriminate.
Qed.

Lemma augmented_rightLeftRotation node :
  augmented node -> augmented (rightLeftRotation node).
Proof.
  destruct node as [|k v h s l [|rk rv rh rs rl rr]]; auto.
  intros (_ & _ & Hl & Hr).
  unfold rightLeftRotation.
  apply augmented_rightRotation in Hr.
  pose proof (rightRotation_Node rk rv rh rs rl rr) as Hne.
  destruct (rightRotation (Node rk rv rh rs rl rr))
    as [|rk' rv' rh' rs' rl' rr']; [contradiction|].
  destruct Hr as (_ & _ & Hrl' & Hrr').
  unfold leftRotation.
  apply augmented_update; [|exact Hrr'].
  apply augmented_update; assumption.
Qed.

Lemma augmented_leftRightRotation node :
  augmented node -> augmented (leftRightRotation node).
Proof.
  destruct node as [|k v h s [|lk lv lh ls ll lr] r]; auto.
  intros (_ & _ & Hl & Hr).
  unfold leftRightRotation.
  apply augmented_leftRotation in Hl.
  pose proof (leftRotation_Node lk lv lh ls ll lr) as Hne.
  destruct (leftRotation (Node lk lv lh ls ll lr))
    as [|lk' lv' lh' ls' ll' lr']; [contradiction|].
  destruct Hl as (_ & _ & Hll' & Hlr').
  unfold rightRotation.
  apply augmented_update; [exact Hll'|].
  apply augmented_update; assumption.
Qed.

Lemma height_nonneg node : augmented node -> 0 <= height node.
Proof.
  induction node as [|k v h s l IHl r IHr]; cbn [augmented height]; [lia|].
  intros (_ & -> & Hl & Hr). specialize (IHl Hl). specialize (IHr Hr). lia.
Qed.

Lemma size_length node :
  augmented node -> size node = Z.of_nat (length (keys node)).
Proof.
  induction node as [|k v h s l IHl r IHr]; cbn [augmented size keys];
    [reflexivity|].
  intros (-> & _ & Hl & Hr).
  rewrite length_app. cbn [length]. rewrite IHl, IHr by assumption. lia.
Qed.

Lemma size_nonneg node : augmented node -> 0 <= size node.
Proof. intros H. rewrite size_length by assumption. lia. Qed.

Lemma height_le_size node : augmented node -> height node <= size node.
Proof.
  induction node as [|k v h s l IHl r IHr]; cbn [augmented height size];
    [lia|].
  intros (-> & -> & Hl & Hr).
  pose proof (size_nonneg _ Hl). pose proof (size_nonneg _ Hr).
  specialize (IHl Hl). specialize (IHr Hr). lia.
Qed.

Lemma update_exact node : augmented node -> update node = node.
Proof.
  destruct node as [|k v h s l r]; [reflexivity|].
  intros (-> & -> & _). apply update_Node.
Qed.

Lemma bst_sorted node : bst node <-> sorted (keys node).
Proof.
  induction node as [|k v h s l IHl r IHr]; simpl.
  - split; [constructor|trivial].
  - rewrite sorted_app, IHl, IHr. tauto.
Qed.

End Rotations.

Create HintDb ravl.
Create Rewrite HintDb ravl_keys.

#[global] Hint Rewrite keys_update keys_rightRotation keys_leftRotation
  keys_rightLeftRotation keys_leftRightRotation : ravl_keys.
#[global] Hint Resolve augmented_update augmented_rightRotation
  augmented_leftRotation augmented_rightLeftRotation
  augmented_leftRightRotation : ravl.

(** ** [insert] *)

Section InsertFacts.

Lemma keys_insert_balance node key node' :
  insert_balance node key = Some node' -> keys node' = keys node.
Proof.
  unfold insert_balance.
  destruct (balanceFactor node >? 1).
  - destruct (node_left node) as [|lk ? ? ? ? ?]; [discriminate|].
    destruct (key >? lk); intros [= <-]; autorewrite with ravl_keys;
      reflexivity.
  - destruct (balanceFactor node <? -1).
    + destruct (node_right node) as [|rk ? ? ? ? ?]; [discriminate|].
      destruct (key <? rk); intros [= <-]; autorewrite with ravl_keys;
        reflexivity.
    + intros [= <-]. reflexivity.
Qed.

(** On a node with exact heights the rebalancing of [insert] never reads
    the key of an absent child. *)
Lemma augmented_insert_balance node key :
  augmented node ->
  exists node', insert_balance node key = Some node' /\ augmented node'.
Proof.
  intros Ha. unfold insert_balance.
  destruct node as [|k v h s l r]; [exists NULL; auto|].
  rewrite balanceFactor_Node. cbn [node_left node_right].
  pose proof Ha as (_ & _ & Hl & Hr).
  apply height_nonneg in Hl, Hr.
  destruct (Z.gtb_spec (height l - height r) 1).
  - destruct l as [|lk lv lh ls ll lr]; [cbn [height] in *; lia|].
    destruct (key >? lk); eexists; split; eauto with ravl.
  - destruct (Z.ltb_spec (height l - height r) (-1)).
    + destruct r as [|rk rv rh rs rl rr]; [cbn [height] in *; lia|].
      destruct (key <? rk); eexists; split; eauto with ravl.
    + eexists; split; eauto.
Qed.

Lemma insert_balance_balanced node key :
  Z.abs (balanceFactor node) <= 1 -> insert_balance node key = Some node.
Proof.
  intros Hb. unfold insert_balance.
  destruct (Z.gtb_spec (balanceFactor node) 1); [lia|].
  destruct (Z.ltb_spec (balanceFactor node) (-1)); [lia|].
  reflexivity.
Qed.

(** [insert] returns, and keeps heights and sizes exact. *)
Lemma augmented_insert node key value :
  augmented node ->
  exists node', insert node key value = Some node' /\ augmented node'.
Proof.
  induction node as [|k v h s l IHl r IHr]; intros Ha.
  - exists (createNode key value). split; [reflexivity|].
    cbn. repeat split; reflexivity.
  - pose proof Ha as (_ & _ & Hl & Hr).
    cbn [insert].
    destruct (key <? k).
    + destruct (IHl Hl) as (l' & -> & Hl').
      apply augmented_insert_balance.
      apply augmented_update; assumption.
    + destruct (key >? k).
      * destruct (IHr Hr) as (r' & -> & Hr').
        apply augmented_insert_balance.
        apply augmented_update; assumption.
      * exists (Node k v h s l r). split; [reflexivity|assumption].
Qed.

(** On the sequence of keys, [insert] is the insertion in a sorted list. *)
Lemma keys_insert node key value node' :
  bst node -> insert node key value = Some node' ->
  keys node' = ins key (keys node).
Proof.
  revert node'.
  induction node as [|k v h s l IHl r IHr]; intros node' Hb.
  - intros [= <-]. reflexivity.
  - destruct Hb as (Hlk & Hkr & Hbl & Hbr).
    cbn [insert keys].
    destruct (Z.ltb_spec key k).
    + destruct (insert l key value) as [l'|] eqn:El; [|discriminate].
      intros Hbal. apply keys_insert_balance in Hbal.
      rewrite Hbal, keys_update. cbn [keys].
      rewrite (IHl l' Hbl eq_refl), ins_app_left by assumption.
      reflexivity.
    + destruct (Z.gtb_spec key k).
      * destruct (insert r key value) as [r'|] eqn:Er; [|discriminate].
        intros Hbal. apply keys_insert_balance in Hbal.
        rewrite Hbal, keys_update. cbn [keys].
        rewrite (IHr r' Hbr eq_refl), ins_app_right by assumption.
        reflexivity.
      * intros [= <-]. cbn [keys].
        assert (key = k) by lia. subst key.
        rewrite ins_app_here by assumption. reflexivity.
Qed.

Lemma bst_insert node key value node' :
  bst node -> insert node key value = Some node' -> bst node'.
Proof.
  intros Hb Hi. rewrite bst_sorted in *.
  rewrite (keys_insert _ _ _ _ (proj2 (bst_sorted _) Hb) Hi).
  apply sorted_ins, Hb.
Qed.

End InsertFacts.

(** ** [insert] keeps a balanced tree balanced *)

Section InsertBalance.

Lemma balanced_Node k v h s l r :
  balanced (Node k v h s l r) <->
  Z.abs (height l - height r) <= 1 /\ balanced l /\ balanced r.
Proof. cbn [balanced]. rewrite balanceFactor_Node. reflexivity. Qed.

Lemma Some_eq (A : Type) (a b : A) : Some a = Some b -> a = b.
Proof. congruence. Qed.

Ltac expand_nodes :=
  repeat (rewrite ?update_Node, ?balanced_Node, ?balanceFactor_Node in *).

Lemma insert_balanced node key value :
  forall node', augmented node -> balanced node ->
  insert node key value = Some node' ->
  balanced node' /\
  (height node' = height node \/ height node' = height node + 1) /\
  grew_on key node node'.
Proof.
  induction node as [|k v h s l IHl r IHr]; intros node' Ha Hb.
  - intros [= <-]. unfold grew_on. cbn. repeat split; try lia. tauto.
  - pose proof Ha as (Hs & Hh & Hal & Har).
    apply balanced_Node in Hb as (Hbf & Hbl & Hbr).
    pose proof (height_nonneg _ Hal) as Hl0.
    pose proof (height_nonneg _ Har) as Hr0.
    cbn [insert].
    destruct (Z.ltb_spec key k) as [Hlt|Hge].
    + destruct (augmented_insert l key value Hal) as (l' & El & Hal').
      rewrite El.
      destruct (IHl l' Hal Hbl El) as (Hbl' & Hhl' & Hg).
      rewrite update_Node. unfold insert_balance.
      rewrite balanceFactor_Node. cbn [node_left node_right].
      destruct (Z.gtb_spec (height l' - height r) 1) as [Hbig|Hsmall].
      * assert (Hgrow : height l' = height l + 1) by lia.
        assert (Hne : l <> NULL) by (intros ->; cbn [height] in *; lia).
        destruct (Hg Hgrow Hne) as (lk & Hlk & Hcase).
        destruct l' as [|lk' lv lh ls ll lr]; [discriminate|].
        injection Hlk as ->.
        rewrite balanceFactor_Node in Hcase.
        destruct Hal' as (_ & Hlh & Hall & Halr).
        apply balanced_Node in Hbl' as (_ & Hbll & Hblr).
        cbn [height] in Hgrow, Hbig.
        cbv beta iota.
        destruct (Z.gtb_spec key lk) as [Hk|Hk].
        all: intros E; apply Some_eq in E; subst node'.
        -- destruct Hcase as [[? ?]|[_ Hc]]; [lia|].
           destruct lr as [|mk mv mh ms ml mr];
             [pose proof (height_nonneg _ Hall); cbn [height] in *; lia|].
           destruct Halr as (_ & Hmh & Haml & Hamr).
           apply balanced_Node in Hblr as (Hbm & Hbml & Hbmr).
           cbn [height] in Hc.
           unfold leftRightRotation, leftRotation, rightRotation, grew_on.
           expand_nodes. cbn [height] in *.
           repeat split; auto; try lia.
        -- destruct Hcase as [[_ Hc]|[? ?]]; [|lia].
           unfold rightRotation, grew_on.
           expand_nodes. cbn [height] in *.
           repeat split; auto; try lia.
      * destruct (Z.ltb_spec (height l' - height r) (-1)); [lia|].
        intros E; apply Some_eq in E; subst node'. unfold grew_on. expand_nodes. cbn [node_key height].
        split; [split; [lia|auto]|]. split; [lia|].
        intros Hgrow _. exists k. split; [reflexivity|]. left. lia.
    + destruct (Z.gtb_spec key k) as [Hgt|Hle].
      * destruct (augmented_insert r key value Har) as (r' & Er & Har').
        rewrite Er.
        destruct (IHr r' Har Hbr Er) as (Hbr' & Hhr' & Hg).
        rewrite update_Node. unfold insert_balance.
        rewrite balanceFactor_Node. cbn [node_left node_right].
        destruct (Z.gtb_spec (height l - height r') 1) as [Hbig|Hsmall];
          [lia|].
        destruct (Z.ltb_spec (height l - height r') (-1)) as [Hbig|Hok].
        -- assert (Hgrow : height r' = height r + 1) by lia.
           assert (Hne : r <> NULL) by (intros ->; cbn [height] in *; lia).
           destruct (Hg Hgrow Hne) as (rk & Hrk & Hcase).
           destruct r' as [|rk' rv rh rs rl rr]; [discriminate|].
           injection Hrk as ->.
           rewrite balanceFactor_Node in Hcase.
           destruct Har' as (_ & Hrh & Harl & Harr).
           apply balanced_Node in Hbr' as (_ & Hbrl & Hbrr).
           cbn [height] in Hgrow, Hbig.
           cbv beta iota.
           destruct (Z.ltb_spec key rk) as [Hk|Hk].
           all: intros E; apply Some_eq in E; subst node'.
           ++ destruct Hcase as [[_ Hc]|[? ?]]; [|lia].
              destruct rl as [|mk mv mh ms ml mr];
                [pose proof (height_nonneg _ Harr); cbn [height] in *; lia|].
              destruct Harl as (_ & Hmh & Haml & Hamr).
              apply balanced_Node in Hbrl as (Hbm & Hbml & Hbmr).
              cbn [height] in Hc.
              unfold rightLeftRotation, leftRotation, rightRotation, grew_on.
              expand_nodes. cbn [height] in *.
              repeat split; auto; try lia.
           ++ destruct Hcase as [[? ?]|[_ Hc]]; [lia|].
              unfold leftRotation, grew_on.
              expand_nodes. cbn [height] in *.
              repeat split; auto; try lia.
        -- intros E; apply Some_eq in E; subst node'.
           unfold grew_on. expand_nodes. cbn [node_key height].
           split; [split; [lia|auto]|]. split; [lia|].
           intros Hgrow _. exists k. split; [reflexivity|]. right. lia.
      * intros [= <-]. unfold grew_on. cbn [height].
        split; [apply balanced_Node; auto|]. split; [lia|]. intros; lia.
Qed.

Lemma insert_keeps_invariant root key value :
  RAVL_invariant root ->
  exists root', insert root key value = Some root' /\ RAVL_invariant root'.
Proof.
  intros (Hb & Hbal & Ha).
  destruct (augmented_insert root key value Ha) as (root' & E & Ha').
  exists root'. split; [exact E|]. split; [|split].
  - eapply bst_insert; eassumption.
  - exact (proj1 (insert_balanced _ _ _ _ Ha Hbal E)).
  - exact Ha'.
Qed.

(** Sequences made of insertions only build trees that satisfy every
    invariant. *)
Lemma run_inserts_invariant ops :
  Forall (fun o => exists k v, o = Insert k v) ops ->
  forall root, RAVL_invariant root ->
  exists root', run ops root = Some root' /\ RAVL_invariant root'.
Proof.
  induction 1 as [|o ops (k & v & ->) _ IH]; intros root Hinv.
  - exists root. auto.
  - cbn [run apply_operation].
    destruct (insert_keeps_invariant root k v Hinv) as (root1 & -> & Hinv1).
    apply IH, Hinv1.
Qed.

End InsertBalance.

(** ** [delete] *)

Section DeleteFacts.

Lemma keys_delete_balance node : keys (delete_balance node) = keys node.
Proof.
  unfold delete_balance.
  repeat match goal with
         | |- context [if ?c then _ else _] => destruct c
         end; autorewrite with ravl_keys; reflexivity.
Qed.

Lemma augmented_delete_balance node :
  augmented (node_left node) -> augmented (node_right node) ->
  augmented (delete_balance node).
Proof.
  intros Hl Hr. pose proof (augmented_update node Hl Hr) as Hu.
  unfold delete_balance.
  repeat match goal with
         | |- context [if ?c then _ else _] => destruct c
         end; auto with ravl.
Qed.

Lemma augmented_delete node key : augmented node -> augmented (delete node key).
Proof.
  revert key.
  induction node as [|k v h s l IHl r IHr]; intros key Ha; [exact I|].
  pose proof Ha as (_ & _ & Hl & Hr).
  cbn [delete].
  destruct (key <? k); [|destruct (key >? k)].
  - apply augmented_delete_balance; cbn [node_left node_right]; auto.
  - apply augmented_delete_balance; cbn [node_left node_right]; auto.
  - destruct l as [|lk lv lh ls ll lr], r as [|rk rv rh rs rl rr].
    + exact I.
    + apply augmented_delete_balance; apply augmented_children, Hr.
    + apply augmented_delete_balance; apply augmented_children, Hl.
    + destruct (successor _) as [|tk ? ? ? ? ?]; [exact Ha|].
      apply augmented_delete_balance; cbn [node_left node_right]; auto.
Qed.

(** The loop of [successor] stops on the node that holds the first key. *)
Lemma successor_loop_first k v h s l r :
  exists tk tv th ts tr rest,
    successor_loop (Node k v h s l r) = Node tk tv th ts NULL tr /\
    keys (Node k v h s l r) = tk :: rest.
Proof.
  revert k v h s r.
  induction l as [|lk lv lh ls ll IHll lr _]; intros k v h s r.
  - exists k, v, h, s, r, (keys r). split; reflexivity.
  - destruct (IHll lk lv lh ls lr) as (tk & tv & th & ts & tr & rest & E & K).
    exists tk, tv, th, ts, tr, (rest ++ k :: keys r). split.
    + exact E.
    + cbn [keys] in *. rewrite K. reflexivity.
Qed.

(** In the two-children case of [delete] the successor is a node. *)
Lemma successor_two_children k v h s l rk rv rh rs rl rr :
  successor (Node k v h s l (Node rk rv rh rs rl rr)) <> NULL.
Proof.
  unfold successor.
  destruct (successor_loop_first rk rv rh rs rl rr)
    as (tk & tv & th & ts & tr & rest & -> & _).
  discriminate.
Qed.

Lemma absent_above (k x : Z) (l : list Z) :
  Forall (fun y => k < y) l -> x <= k -> ~ In x l.
Proof.
  rewrite Forall_forall. intros H Hx Hin. apply H in Hin. lia.
Qed.

Lemma absent_below (k x : Z) (l : list Z) :
  Forall (fun y => y < k) l -> k <= x -> ~ In x l.
Proof.
  rewrite Forall_forall. intros H Hx Hin. apply H in Hin. lia.
Qed.

(** On the sequence of keys, [delete] removes the key. *)
Lemma keys_delete node key :
  bst node -> keys (delete node key) = del key (keys node).
Proof.
  revert key.
  induction node as [|k v h s l IHl r IHr]; intros key Hb; [reflexivity|].
  destruct Hb as (Hlk & Hkr & Hbl & Hbr).
  cbn [delete].
  destruct (Z.ltb_spec key k); [|destruct (Z.gtb_spec key k)].
  - rewrite keys_delete_balance. cbn [keys].
    rewrite IHl, del_app, del_cons_neq by (assumption || lia).
    rewrite (del_absent key (keys r))
      by (eapply absent_above; [eassumption|lia]).
    reflexivity.
  - rewrite keys_delete_balance. cbn [keys].
    rewrite IHr, del_app, del_cons_neq by (assumption || lia).
    rewrite (del_absent key (keys l))
      by (eapply absent_below; [eassumption|lia]).
    reflexivity.
  - assert (key = k) by lia. subst key.
    assert (Hl : del k (keys l) = keys l)
      by (apply del_absent; eapply absent_below; [eassumption|lia]).
    assert (Hr : del k (keys r) = keys r)
      by (apply del_absent; eapply absent_above; [eassumption|lia]).
    assert (Hgoal : del k (keys (Node k v h s l r)) = keys l ++ keys r).
    { cbn [keys]. rewrite del_app, del_cons_eq, Hl, Hr. reflexivity. }
    rewrite Hgoal.
    destruct l as [|lk lv lh ls ll lr], r as [|rk rv rh rs rl rr].
    + reflexivity.
    + rewrite keys_delete_balance. reflexivity.
    + rewrite keys_delete_balance, app_nil_r. reflexivity.
    + destruct (successor_loop_first rk rv rh rs rl rr)
        as (tk & tv & th & ts & tr & rest & E & K).
      unfold successor. rewrite E, keys_delete_balance.
      apply (bst_sorted (Node rk rv rh rs rl rr)) in Hbr as Hs.
      remember (Node rk rv rh rs rl rr) as R.
      remember (Node lk lv lh ls ll lr) as L.
      cbn [keys]. rewrite IHr, K, del_cons_eq by assumption.
      rewrite del_absent; [reflexivity|].
      apply sorted_head_absent. rewrite <- K. exact Hs.
Qed.

Lemma bst_delete node key : bst node -> bst (delete node key).
Proof.
  intros Hb. rewrite bst_sorted, keys_delete by assumption.
  apply sorted_del, bst_sorted, Hb.
Qed.

End DeleteFacts.

(** ** Searching, and operations that leave the tree as it is *)

Section Lookup.

Lemma in_keys_Node key k v h s l r :
  bst (Node k v h s l r) -> In key (keys (Node k v h s l r)) ->
  (key < k /\ In key (keys l)) \/ key = k \/ (k < key /\ In key (keys r)).
Proof.
  intros (Hl & Hr & _). cbn [keys]. rewrite in_app_iff. cbn [In].
  rewrite Forall_forall in Hl, Hr.
  intros [Hin|[->|Hin]]; [left|right; left|right; right]; auto.
Qed.

Lemma search_absent node key :
  ~ In key (keys node) -> search node key = NULL.
Proof.
  induction node as [|k v h s l IHl r IHr]; [reflexivity|].
  cbn [keys search]. rewrite in_app_iff. cbn [In]. intros Hn.
  destruct (Z.eqb_spec k key); [tauto|].
  destruct (k <? key); [apply IHr|apply IHl]; tauto.
Qed.

Lemma search_present node key :
  bst node -> In key (keys node) -> node_key (search node key) = Some key.
Proof.
  induction node as [|k v h s l IHl r IHr]; [contradiction|].
  intros Hb Hin. pose proof Hb as (_ & _ & Hbl & Hbr).
  cbn [search].
  destruct (in_keys_Node _ _ _ _ _ _ _ Hb Hin) as [[Hlt H]|[->|[Hlt H]]].
  - destruct (Z.eqb_spec k key); [lia|].
    destruct (Z.ltb_spec k key); [lia|]. auto.
  - rewrite Z.eqb_refl. reflexivity.
  - destruct (Z.eqb_spec k key); [lia|].
    destruct (Z.ltb_spec k key); [|lia]. auto.
Qed.

(** On a node that is exact and balanced, lines 323-344 of [delete] change
    nothing. *)
Lemma delete_balance_exact node :
  augmented node -> Z.abs (balanceFactor node) <= 1 ->
  delete_balance node = node.
Proof.
  intros Ha Hb. unfold delete_balance. rewrite (update_exact _ Ha).
  destruct (Z.gtb_spec (balanceFactor node) 1); [lia|].
  destruct (Z.ltb_spec (balanceFactor node) (-1)); [lia|].
  reflexivity.
Qed.

Lemma delete_absent node key :
  augmented node -> balanced node -> ~ In key (keys node) ->
  delete node key = node.
Proof.
  induction node as [|k v h s l IHl r IHr]; [reflexivity|].
  intros Ha Hb. pose proof Ha as (_ & _ & Hal & Har).
  pose proof Hb as (Hbf & Hbl & Hbr).
  cbn [keys delete]. rewrite in_app_iff. cbn [In]. intros Hn.
  destruct (Z.ltb_spec key k); [|destruct (Z.gtb_spec key k)].
  - rewrite IHl by tauto. apply delete_balance_exact; assumption.
  - rewrite IHr by tauto. apply delete_balance_exact; assumption.
  - exfalso. apply Hn. right. left. lia.
Qed.

Lemma insert_present node key value :
  bst node -> balanced node -> augmented node -> In key (keys node) ->
  insert node key value = Some node.
Proof.
  induction node as [|k v h s l IHl r IHr]; [contradiction|].
  intros Hb Hbal Ha Hin.
  pose proof Hb as (_ & _ & Hbl & Hbr).
  pose proof Hbal as (Hbf & Hball & Hbalr).
  pose proof Ha as (_ & _ & Hal & Har).
  cbn [insert].
  destruct (in_keys_Node _ _ _ _ _ _ _ Hb Hin) as [[Hlt H]|[->|[Hlt H]]].
  - destruct (Z.ltb_spec key k); [|lia].
    rewrite IHl, (update_exact _ Ha) by assumption.
    apply insert_balance_balanced, Hbf.
  - rewrite Z.ltb_irrefl.
    destruct (Z.gtb_spec k k); [lia|reflexivity].
  - destruct (Z.ltb_spec key k); [lia|].
    destruct (Z.gtb_spec key k); [|lia].
    rewrite IHr, (update_exact _ Ha) by assumption.
    apply insert_balance_balanced, Hbf.
Qed.

End Lookup.

(** ** Order statistics *)

Section OrderStatistics.

Variable NOTIN : Z.

Lemma rank_present_range node key :
  bst node -> augmented node -> In key (keys node) ->
  1 <= rank NOTIN node key <= size node.
Proof.
  induction node as [|k v h s l IHl r IHr]; [contradiction|].
  intros Hb Ha Hin.
  pose proof Hb as (_ & _ & Hbl & Hbr).
  pose proof Ha as (Hs & _ & Hal & Har).
  pose proof (size_nonneg _ Hal). pose proof (size_nonneg _ Har).
  cbn [rank size].
  destruct (in_keys_Node _ _ _ _ _ _ _ Hb Hin) as [[Hlt H1]|[->|[Hlt H1]]].
  - destruct (Z.eqb_spec k key); [lia|].
    destruct (Z.gtb_spec key k); [lia|].
    specialize (IHl Hbl Hal H1). lia.
  - rewrite Z.eqb_refl. lia.
  - destruct (Z.eqb_spec k key); [lia|].
    destruct (Z.gtb_spec key k); [|lia].
    specialize (IHr Hbr Har H1). lia.
Qed.

(** [findRank] at the rank of a present key stops on the node that
    [search] finds for that key. *)
Lemma findRank_rank node key :
  bst node -> augmented node -> In key (keys node) ->
  findRank node (rank NOTIN node key) = search node key.
Proof.
  induction node as [|k v h s l IHl r IHr]; [contradiction|].
  intros Hb Ha Hin.
  pose proof Hb as (_ & _ & Hbl & Hbr).
  pose proof Ha as (Hs & _ & Hal & Har).
  cbn [rank findRank search].
  destruct (in_keys_Node _ _ _ _ _ _ _ Hb Hin) as [[Hlt H1]|[->|[Hlt H1]]].
  - pose proof (rank_present_range l key Hbl Hal H1).
    destruct (Z.eqb_spec k key); [lia|].
    destruct (Z.gtb_spec key k); [lia|].
    destruct (Z.ltb_spec k key); [lia|].
    destruct (Z.eqb_spec (size l + 1) (rank NOTIN l key)); [lia|].
    destruct (Z.ltb_spec (rank NOTIN l key) (size l + 1)); [|lia].
    apply IHl; assumption.
  - rewrite !Z.eqb_refl. reflexivity.
  - pose proof (rank_present_range r key Hbr Har H1).
    destruct (Z.eqb_spec k key); [lia|].
    destruct (Z.gtb_spec key k); [|lia].
    destruct (Z.ltb_spec k key); [|lia].
    destruct (Z.eqb_spec (size l + 1) (size l + 1 + rank NOTIN r key));
      [lia|].
    destruct (Z.ltb_spec (size l + 1 + rank NOTIN r key) (size l + 1));
      [lia|].
    replace (size l + 1 + rank NOTIN r key - (size l + 1))
      with (rank NOTIN r key) by lia.
    apply IHr; assumption.
Qed.

(** [findRank] at a rank within range stops on a node, and [rank] of that
    node's key is the rank asked for. *)
Lemma rank_findRank node r :
  bst node -> augmented node -> 1 <= r <= size node ->
  exists key, node_key (findRank node r) = Some key /\
              In key (keys node) /\ rank NOTIN node key = r.
Proof.
  revert r.
  induction node as [|k v h s l IHl rt IHr]; intros r Hb Ha Hr;
    [cbn [size] in Hr; lia|].
  pose proof Hb as (Hlk & Hkr & Hbl & Hbr).
  pose proof Ha as (Hs & _ & Hal & Har).
  rewrite Forall_forall in Hlk, Hkr.
  cbn [size] in Hr. cbn [findRank keys].
  destruct (Z.eqb_spec (size l + 1) r) as [E|NE].
  - exists k. cbn [node_key rank]. rewrite Z.eqb_refl.
    repeat split; auto. apply in_or_app. right. left. reflexivity.
  - destruct (Z.ltb_spec r (size l + 1)).
    + destruct (IHl r Hbl Hal) as (key & Hk & Hin & Hrk); [lia|].
      exists key. repeat split; auto.
      * apply in_or_app. left. exact Hin.
      * apply Hlk in Hin as Hlt. cbn [rank].
        destruct (Z.eqb_spec k key); [lia|].
        destruct (Z.gtb_spec key k); [lia|]. exact Hrk.
    + destruct (IHr (r - (size l + 1)) Hbr Har) as (key & Hk & Hin & Hrk);
        [lia|].
      exists key. repeat split; auto.
      * apply in_or_app. right. right. exact Hin.
      * apply Hkr in Hin as Hlt. cbn [rank].
        destruct (Z.eqb_spec k key); [lia|].
        destruct (Z.gtb_spec key k); [|lia]. lia.
Qed.

Lemma findRank_NULL_iff node r :
  augmented node -> findRank node r = NULL <-> r < 1 \/ size node < r.
Proof.
  revert r.
  induction node as [|k v h s l IHl rt IHr]; intros r Ha.
  - cbn [findRank size]. split; [lia|reflexivity].
  - pose proof Ha as (Hs & _ & Hal & Har).
    pose proof (size_nonneg _ Hal). pose proof (size_nonneg _ Har).
    cbn [findRank size].
    destruct (Z.eqb_spec (size l + 1) r).
    + split; [discriminate|lia].
    + destruct (Z.ltb_spec r (size l + 1)).
      * rewrite (IHl r Hal). lia.
      * rewrite (IHr (r - (size l + 1)) Har). lia.
Qed.

(** For a key above every key of the tree, [rank] adds [NOTIN] to the
    number of nodes. *)
Lemma rank_above node key :
  augmented node -> Forall (fun x => x < key) (keys node) ->
  rank NOTIN node key = size node + NOTIN.
Proof.
  induction node as [|k v h s l IHl r IHr]; [reflexivity|].
  intros (Hs & _ & Hal & Har). cbn [keys rank size].
  rewrite Forall_app. intros (_ & Hk).
  inversion Hk as [|? ? Hlt Hr]; subst.
  destruct (Z.eqb_spec k key); [lia|].
  destruct (Z.gtb_spec key k); [|lia].
  rewrite IHr by assumption. lia.
Qed.

(** For a key below every key of the tree, [rank] returns [NOTIN]. *)
Lemma rank_below node key :
  Forall (fun x => key < x) (keys node) -> rank NOTIN node key = NOTIN.
Proof.
  induction node as [|k v h s l IHl r IHr]; [reflexivity|].
  cbn [keys rank]. rewrite Forall_app. intros (Hl & Hk).
  inversion Hk as [|? ? Hlt Hr]; subst.
  destruct (Z.eqb_spec k key); [lia|].
  destruct (Z.gtb_spec key k); [lia|].
  apply IHl, Hl.
Qed.

End OrderStatistics.

(** ** Trees built by sequences of [insert] and [delete] *)

Section Sequences.

(** Every sequence of operations runs to the end, and search-tree order
    and exact heights and sizes are kept along the way. *)
Lemma run_keeps_order_and_augmentation ops :
  forall root, bst root -> augmented root ->
  exists root', run ops root = Some root' /\ bst root' /\ augmented root'.
Proof.
  induction ops as [|o ops IH]; intros root Hb Ha.
  - exists root. auto.
  - cbn [run]. destruct o as [k v|k]; cbn [apply_operation].
    + destruct (augmented_insert root k v Ha) as (root1 & E & Ha1).
      rewrite E. apply IH; [|exact Ha1].
      eapply bst_insert; eassumption.
    + apply IH; [apply bst_delete|apply augmented_delete]; assumption.
Qed.

End Sequences.

(** ** The example trees satisfy the invariants *)

Lemma tree_10_20_30_invariant : RAVL_invariant tree_10_20_30.
Proof. check_invariant. Defined.

Lemma tree_right_left_heavy_invariant : RAVL_invariant tree_right_left_heavy.
Proof. check_invariant. Defined.

Lemma tree_right_right_heavy_invariant :
  RAVL_invariant tree_right_right_heavy.
Proof. check_invariant. Defined.

(** The example trees are built by the insertions their names tell. *)
Example run_10_20_30 :
  run [Insert 10 0; Insert 20 0; Insert 30 0] NULL = Some tree_10_20_30.
Proof. reflexivity. Qed.

Example run_30_10_20 :
  run [Insert 30 0; Insert 10 0; Insert 20 0] NULL = Some tree_10_20_30.
Proof. reflexivity. Qed.

Example run_right_right_heavy :
  run [Insert 10 0; Insert 5 0; Insert 20 0; Insert 3 0; Insert 15 0;
       Insert 30 0; Insert 40 0] NULL
  = Some tree_right_right_heavy.
Proof. reflexivity. Qed.

(** Deleting the root of a three-node tree: the key of the successor is
    copied into the root, the value of the root stays. *)
Example delete_root_keeps_value :
  delete (Node 10 1 2 3 (Node 5 2 1 1 NULL NULL) (Node 20 3 1 1 NULL NULL)) 10
  = Node 20 1 2 2 (Node 5 2 1 1 NULL NULL) NULL.
Proof. reflexivity. Qed.

(** ** The claims *)

(** C1 (defect in [delete]).  The tree built by inserting 10, 5, 20, 15
    satisfies every invariant; deleting 5 from it returns a tree whose root
    has balance factor 2.  The balance invariant does not survive [delete]:
    in the right-heavy case the rotation is chosen with the tests of the
    left-heavy case. *)
Theorem delete_breaks_balance :
  let ops := [Insert 10 0; Insert 5 0; Insert 20 0; Insert 15 0] in
  run ops NULL = Some tree_right_left_heavy /\
  RAVL_invariant tree_right_left_heavy /\
  exists after,
    run (ops ++ [Delete 5]) NULL = Some after /\
    after = Node 20 0 3 3 (Node 10 0 2 2 NULL (Node 15 0 1 1 NULL NULL)) NULL /\
    balanceFactor after = 2 /\
    ~ balanced after.
Proof.
  cbv zeta. split; [reflexivity|]. split; [check_invariant|].
  eexists. split; [reflexivity|]. split; [reflexivity|].
  split; [reflexivity|]. cbn. lia.
Qed.

(** C2 (defect in [rank]).  Whatever the value of [NOTIN], [rank] of the
    absent key 20 in the one-node tree of key 10 is [1 + NOTIN], not
    [NOTIN]: the result of the recursive call on the right subtree is added
    to without being tested.  With [NOTIN = -1], [rank] of the absent key 30
    in the tree of keys 10 and 20 is 1, the rank of key 10. *)
Theorem rank_absent_key_not_NOTIN :
  (forall NOTIN,
     run [Insert 10 0] NULL = Some (createNode 10 0) /\
     RAVL_invariant (createNode 10 0) /\
     ~ In 20 (keys (createNode 10 0)) /\
     rank NOTIN (createNode 10 0) 20 = 1 + NOTIN /\
     rank NOTIN (createNode 10 0) 20 <> NOTIN) /\
  (exists root,
     run [Insert 10 0; Insert 20 0] NULL = Some root /\
     RAVL_invariant root /\
     ~ In 30 (keys root) /\
     rank (-1) root 30 = 1 /\
     1 <= rank (-1) root 30 <= size root /\
     rank (-1) root 10 = 1).
Proof.
  split.
  - intros NOTIN. split; [reflexivity|]. split; [check_invariant|].
    split; [absent_key|]. cbn [createNode rank size].
    assert (E : (10 =? 20) = false) by reflexivity.
    assert (G : (20 >? 10) = true) by reflexivity.
    rewrite E, G. split; lia.
  - eexists. split; [reflexivity|]. split; [check_invariant|].
    split; [absent_key|]. split; [reflexivity|].
    split; [cbn; lia|reflexivity].
Qed.

(** C3 (defect in [delete]).  The left-heavy tests of [delete] are those of
    the claim, but the right-heavy tests are not their mirror image: with
    balance factor -2 at the node and +1 at its right child [delete] applies
    the left rotation where the claim has the right-left rotation, and with
    -2 at the node and -1 at its right child it applies the right-left
    rotation where the claim has the left rotation. *)
Theorem delete_right_heavy_not_mirrored :
  (let node := Node 10 0 3 4 NULL (node_right tree_right_left_heavy) in
   delete tree_right_left_heavy 5 = delete_balance node /\
   balanceFactor (update node) = -2 /\
   balanceFactor (node_right (update node)) = 1 /\
   delete_balance node = leftRotation (update node) /\
   delete_balance node <> rightLeftRotation (update node)) /\
  (let node :=
     Node 10 0 4 7 (Node 5 0 1 1 NULL NULL)
          (node_right tree_right_right_heavy) in
   delete tree_right_right_heavy 3 = delete_balance node /\
   balanceFactor (update node) = -2 /\
   balanceFactor (node_right (update node)) = -1 /\
   delete_balance node = rightLeftRotation (update node) /\
   delete_balance node <> leftRotation (update node)).
Proof.
  split; cbv zeta; repeat split; try reflexivity; vm_compute; discriminate.
Qed.

(** C4.  Every sequence of [insert] and [delete] operations applied to the
    empty tree returns a tree, and in that tree every node has only smaller
    keys in its left subtree and only greater keys in its right subtree. *)
Theorem bst_order_after_operations (ops : list operation) :
  exists root, run ops NULL = Some root /\ bst root.
Proof.
  destruct (run_keeps_order_and_augmentation ops NULL I I)
    as (root & E & Hb & _).
  exists root. auto.
Qed.

(** C5.  Every sequence of [insert] and [delete] operations applied to the
    empty tree returns a tree, and every node [n] of it has
    [size n = 1 + size (left n) + size (right n)] and
    [height n = 1 + max (height (left n)) (height (right n))], where
    [size] and [height] are 0 on an absent child. *)
Theorem augmentation_after_operations (ops : list operation) :
  exists root, run ops NULL = Some root /\ augmented root.
Proof.
  destruct (run_keeps_order_and_augmentation ops NULL I I)
    as (root & E & _ & Ha).
  exists root. auto.
Qed.

(** C6.  In a tree that satisfies the invariants, [findRank] at the rank of
    a present key returns the node of that key (the node [search] returns),
    and [rank] of the key of the node that [findRank] returns for a rank
    between 1 and the size of the tree is that rank. *)
Theorem rank_findRank_inverse (NOTIN : Z) (root : RAVL_Node) :
  RAVL_invariant root ->
  (forall k, In k (keys root) ->
     findRank root (rank NOTIN root k) = search root k /\
     node_key (findRank root (rank NOTIN root k)) = Some k) /\
  (forall r, 1 <= r <= size root ->
     exists k, node_key (findRank root r) = Some k /\
               rank NOTIN root k = r).
Proof.
  intros (Hb & _ & Ha). split.
  - intros k Hin. rewrite findRank_rank by assumption.
    split; [reflexivity|]. apply search_present; assumption.
  - intros r Hr.
    destruct (rank_findRank NOTIN root r Hb Ha Hr) as (k & Hk & _ & Hrk).
    exists k. auto.
Qed.

Lemma rank_findRank_inverse_witness :
  RAVL_invariant tree_10_20_30 /\
  ((forall k, In k (keys tree_10_20_30) ->
      findRank tree_10_20_30 (rank (-1) tree_10_20_30 k)
      = search tree_10_20_30 k /\
      node_key (findRank tree_10_20_30 (rank (-1) tree_10_20_30 k)) = Some k) /\
   (forall r, 1 <= r <= size tree_10_20_30 ->
      exists k, node_key (findRank tree_10_20_30 r) = Some k /\
                rank (-1) tree_10_20_30 k = r)).
Proof.
  split.
  - exact tree_10_20_30_invariant.
  - apply (rank_findRank_inverse (-1) tree_10_20_30).
    exact tree_10_20_30_invariant.
Defined.

(** C7.  In a tree that satisfies the invariants, inserting an absent key
    and then deleting it gives a tree in which [search] does not find the
    key, and whose size is one less than after the insertion, which is the
    size before it. *)
Theorem insert_delete_round_trip (T : RAVL_Node) (k : Z) (v : void_ptr) :
  RAVL_invariant T -> ~ In k (keys T) ->
  exists T',
    insert T k v = Some T' /\
    search (delete T' k) k = NULL /\
    size (delete T' k) = size T' - 1 /\
    size (delete T' k) = size T.
Proof.
  intros (Hb & _ & Ha) Hn.
  destruct (augmented_insert T k v Ha) as (T' & E & Ha').
  pose proof (bst_insert _ _ _ _ Hb E) as Hb'.
  pose proof (keys_insert _ _ _ _ Hb E) as K'.
  pose proof (keys_delete T' k Hb') as K''.
  rewrite K', del_ins in K'' by assumption.
  exists T'. split; [exact E|]. split.
  - apply search_absent. rewrite K''. exact Hn.
  - rewrite (size_length (delete T' k)) by (apply augmented_delete, Ha').
    rewrite (size_length T'), (size_length T) by assumption.
    rewrite K'', K', length_ins_absent by assumption. lia.
Qed.

Lemma insert_delete_round_trip_witness :
  RAVL_invariant tree_10_20_30 /\ ~ In 25 (keys tree_10_20_30) /\
  exists T',
    insert tree_10_20_30 25 7 = Some T' /\
    search (delete T' 25) 25 = NULL /\
    size (delete T' 25) = size T' - 1 /\
    size (delete T' 25) = size tree_10_20_30.
Proof.
  assert (Hn : ~ In 25 (keys tree_10_20_30)) by absent_key.
  split; [exact tree_10_20_30_invariant|]. split; [exact Hn|].
  apply (insert_delete_round_trip tree_10_20_30 25 7);
    [exact tree_10_20_30_invariant|exact Hn].
Defined.

(** C8.  In a tree that satisfies the invariants, inserting a key that is
    present returns the tree itself: same nodes, same keys in order, same
    sizes and heights, and the value stored with the key is kept. *)
Theorem insert_duplicate_noop (T : RAVL_Node) (k : Z) (v : void_ptr) :
  RAVL_invariant T -> In k (keys T) ->
  exists T',
    insert T k v = Some T' /\ T' = T /\
    size T' = size T /\ keys T' = keys T /\ search T' k = search T k.
Proof.
  intros (Hb & Hbal & Ha) Hin.
  exists T. rewrite insert_present by assumption. auto.
Qed.

Lemma insert_duplicate_noop_witness :
  RAVL_invariant tree_10_20_30 /\ In 30 (keys tree_10_20_30) /\
  exists T',
    insert tree_10_20_30 30 7 = Some T' /\ T' = tree_10_20_30 /\
    size T' = size tree_10_20_30 /\ keys T' = keys tree_10_20_30 /\
    search T' 30 = search tree_10_20_30 30.
Proof.
  assert (Hin : In 30 (keys tree_10_20_30))
    by (right; right; left; reflexivity).
  split; [exact tree_10_20_30_invariant|]. split; [exact Hin|].
  apply (insert_duplicate_noop tree_10_20_30 30 7);
    [exact tree_10_20_30_invariant|exact Hin].
Defined.

(** C9.  In a tree that satisfies the invariants, [findRank] returns the
    null pointer exactly for the ranks below 1 or above the size of the
    tree; for a rank from 1 to the size it returns a node. *)
Theorem findRank_absent_iff (root : RAVL_Node) (r : Z) :
  RAVL_invariant root ->
  (findRank root r = NULL <-> r < 1 \/ r > size root) /\
  (1 <= r <= size root -> exists k, node_key (findRank root r) = Some k).
Proof.
  intros (_ & _ & Ha).
  assert (Hiff : findRank root r = NULL <-> r < 1 \/ r > size root).
  { rewrite findRank_NULL_iff by assumption. lia. }
  split; [exact Hiff|].
  intros Hr. destruct (findRank root r) as [|k ? ? ? ? ?] eqn:E.
  - exfalso. assert (r < 1 \/ r > size root) by (apply Hiff; reflexivity). lia.
  - exists k. reflexivity.
Qed.

Lemma findRank_absent_iff_witness :
  RAVL_invariant tree_10_20_30 /\
  ((findRank tree_10_20_30 4 = NULL <-> 4 < 1 \/ 4 > size tree_10_20_30) /\
   (1 <= 4 <= size tree_10_20_30 ->
    exists k, node_key (findRank tree_10_20_30 4) = Some k)).
Proof.
  split; [exact tree_10_20_30_invariant|].
  apply (findRank_absent_iff tree_10_20_30 4). exact tree_10_20_30_invariant.
Defined.

(** C10.  In a tree that satisfies the invariants, deleting an absent key
    returns the tree itself: same structure, and the same key, value,
    height and size at every node. *)
Theorem delete_absent_unchanged (T : RAVL_Node) (k : Z) :
  RAVL_invariant T -> ~ In k (keys T) -> delete T k = T.
Proof.
  intros (_ & Hbal & Ha) Hn. apply delete_absent; assumption.
Qed.

Lemma delete_absent_unchanged_witness :
  RAVL_invariant tree_right_right_heavy /\
  ~ In 17 (keys tree_right_right_heavy) /\
  delete tree_right_right_heavy 17 = tree_right_right_heavy.
Proof.
  assert (Hn : ~ In 17 (keys tree_right_right_heavy)) by absent_key.
  split; [exact tree_right_right_heavy_invariant|]. split; [exact Hn|].
  apply (delete_absent_unchanged tree_right_right_heavy 17);
    [exact tree_right_right_heavy_invariant|exact Hn].
Defined.

(** ** Bindings *)

Section Bindings.

Lemma entries_update node : entries (update node) = entries node.
Proof. destruct node; [reflexivity|]. rewrite update_Node. reflexivity. Qed.

Lemma entries_rightRotation node : entries (rightRotation node) = entries node.
Proof.
  destruct node as [|k v h s [|lk lv lh ls ll lr] r]; try reflexivity.
  unfold rightRotation. rewrite !update_Node. cbn [entries].
  rewrite <- app_assoc. reflexivity.
Qed.

Lemma entries_leftRotation node : entries (leftRotation node) = entries node.
Proof.
  destruct node as [|k v h s l [|rk rv rh rs rl rr]]; try reflexivity.
  unfold leftRotation. rewrite !update_Node. cbn [entries].
  rewrite <- app_assoc. reflexivity.
Qed.

Lemma entries_rightLeftRotation node :
  entries (rightLeftRotation node) = entries node.
Proof.
  destruct node as [|k v h s l [|rk rv rh rs rl rr]]; try reflexivity.
  unfold rightLeftRotation. rewrite entries_leftRotation.
  cbn [entries]. rewrite entries_rightRotation. reflexivity.
Qed.

Lemma entries_leftRightRotation node :
  entries (leftRightRotation node) = entries node.
Proof.
  destruct node as [|k v h s [|lk lv lh ls ll lr] r]; try reflexivity.
  unfold leftRightRotation. rewrite entries_rightRotation.
  cbn [entries]. rewrite entries_leftRotation. reflexivity.
Qed.

Lemma entries_insert_balance node key node' :
  insert_balance node key = Some node' -> entries node' = entries node.
Proof.
  unfold insert_balance.
  destruct (balanceFactor node >? 1).
  - destruct (node_left node) as [|lk ? ? ? ? ?]; [discriminate|].
    destruct (key >? lk); intros [= <-];
      auto using entries_leftRightRotation, entries_rightRotation.
  - destruct (balanceFactor node <? -1).
    + destruct (node_right node) as [|rk ? ? ? ? ?]; [discriminate|].
      destruct (key <? rk); intros [= <-];
        auto using entries_rightLeftRotation, entries_leftRotation.
    + intros [= <-]. reflexivity.
Qed.

Lemma entries_delete_balance node :
  entries (delete_balance node) = entries node.
Proof.
  unfold delete_balance.
  repeat match goal with
         | |- context [if ?c then _ else _] => destruct c
         end;
    rewrite ?entries_rightRotation, ?entries_leftRotation,
      ?entries_rightLeftRotation, ?entries_leftRightRotation;
    apply entries_update.
Qed.

Lemma keys_entries node : keys node = map fst (entries node).
Proof.
  induction node as [|k v h s l IHl r IHr]; [reflexivity|].
  cbn [keys entries]. rewrite map_app. cbn [map fst].
  rewrite IHl, IHr. reflexivity.
Qed.

Lemma in_entries_keys node k v : In (k, v) (entries node) -> In k (keys node).
Proof.
  intros H. rewrite keys_entries.
  change k with (fst (k, v)). apply in_map, H.
Qed.

Lemma in_keys_entries node k :
  In k (keys node) -> exists v, In (k, v) (entries node).
Proof.
  rewrite keys_entries, in_map_iff. intros ([k' v] & E & H).
  cbn in E. subst k'. exists v. exact H.
Qed.

(** [search] returns either nothing or a node of the tree that carries the
    key asked for. *)
Lemma search_sound node key e :
  node_entry (search node key) = Some e ->
  fst e = key /\ In e (entries node).
Proof.
  induction node as [|k v h s l IHl r IHr]; [discriminate|].
  cbn [search entries]. rewrite in_app_iff. cbn [In].
  destruct (Z.eqb_spec k key) as [->|Hne].
  - intros [= <-]. auto.
  - destruct (k <? key); intros H;
      [apply IHr in H|apply IHl in H]; tauto.
Qed.

(** In a search tree [search] finds every binding. *)
Lemma search_complete node k v :
  bst node -> In (k, v) (entries node) ->
  node_entry (search node k) = Some (k, v).
Proof.
  induction node as [|k0 v0 h s l IHl r IHr]; [contradiction|].
  intros (Hl & Hr & Hbl & Hbr).
  rewrite Forall_forall in Hl, Hr.
  cbn [search entries]. rewrite in_app_iff. cbn [In].
  intros [Hin|[[= -> ->]|Hin]].
  - apply in_entries_keys in Hin as Hk. apply Hl in Hk.
    destruct (Z.eqb_spec k0 k); [lia|].
    destruct (Z.ltb_spec k0 k); [lia|]. auto.
  - rewrite Z.eqb_refl. reflexivity.
  - apply in_entries_keys in Hin as Hk. apply Hr in Hk.
    destruct (Z.eqb_spec k0 k); [lia|].
    destruct (Z.ltb_spec k0 k); [|lia]. auto.
Qed.

(** Two search trees that bind a key alike answer [search] alike. *)
Lemma search_agree t1 t2 key :
  bst t1 -> bst t2 ->
  (forall v, In (key, v) (entries t1) <-> In (key, v) (entries t2)) ->
  node_entry (search t1 key) = node_entry (search t2 key).
Proof.
  intros H1 H2 Hiff.
  destruct (node_entry (search t1 key)) as [[k1 v1]|] eqn:E1.
  - apply search_sound in E1 as (Hk & Hin). cbn in Hk. subst k1.
    symmetry. apply search_complete; [assumption|]. apply Hiff, Hin.
  - destruct (node_entry (search t2 key)) as [[k2 v2]|] eqn:E2;
      [|reflexivity].
    apply search_sound in E2 as (Hk & Hin). cbn in Hk. subst k2.
    apply Hiff in Hin. apply (search_complete _ _ _ H1) in Hin. congruence.
Qed.

(** The bindings after [insert]: those before, and the new one when the key
    was absent. *)
Lemma entries_insert node key value node' :
  bst node -> insert node key value = Some node' ->
  forall e, In e (entries node') <->
            In e (entries node) \/
            (e = (key, value) /\ ~ In key (keys node)).
Proof.
  revert node'.
  induction node as [|k v h s l IHl r IHr]; intros node' Hb.
  - intros [= <-] e. cbn. intuition congruence.
  - pose proof Hb as (Hlk & Hkr & Hbl & Hbr).
    rewrite Forall_forall in Hlk, Hkr.
    cbn [insert].
    destruct (Z.ltb_spec key k) as [Hlt|Hge].
    + destruct (insert l key value) as [l'|] eqn:El; [|discriminate].
      intros Hbal e. apply entries_insert_balance in Hbal.
      rewrite Hbal, entries_update. cbn [entries keys].
      rewrite !in_app_iff. cbn [In]. rewrite (IHl l' Hbl eq_refl e).
      assert (~ In key (keys r)) by (intros Hc; apply Hkr in Hc; lia).
      intuition (try lia).
    + destruct (Z.gtb_spec key k) as [Hgt|Hle].
      * destruct (insert r key value) as [r'|] eqn:Er; [|discriminate].
        intros Hbal e. apply entries_insert_balance in Hbal.
        rewrite Hbal, entries_update. cbn [entries keys].
        rewrite !in_app_iff. cbn [In]. rewrite (IHr r' Hbr eq_refl e).
        assert (~ In key (keys l)) by (intros Hc; apply Hlk in Hc; lia).
        intuition (try lia).
      * intros [= <-] e. assert (key = k) by lia. subst key.
        cbn [keys]. rewrite in_app_iff. cbn [In]. intuition.
Qed.

End Bindings.

(** ** Further properties of [search], [insert] and [delete] *)

(** X1.  In a search tree, [search] returns the null pointer exactly for the
    keys that are absent, and for a present key it returns the node that
    binds it. *)
Theorem search_finds_exactly (root : RAVL_Node) (key : Z) :
  bst root ->
  (search root key = NULL <-> ~ In key (keys root)) /\
  (forall v, In (key, v) (entries root) <->
             node_entry (search root key) = Some (key, v)).
Proof.
  intros Hb. split; [split|].
  - intros E Hin. apply (search_present _ _ Hb) in Hin.
    rewrite E in Hin. discriminate.
  - apply search_absent.
  - intros v. split.
    + apply search_complete, Hb.
    + intros E. apply search_sound in E. tauto.
Qed.

Lemma search_finds_exactly_witness :
  bst tree_10_20_30 /\
  ((search tree_10_20_30 25 = NULL <-> ~ In 25 (keys tree_10_20_30)) /\
   (forall v, In (25, v) (entries tree_10_20_30) <->
              node_entry (search tree_10_20_30 25) = Some (25, v))).
Proof.
  split.
  - exact (proj1 tree_10_20_30_invariant).
  - apply (search_finds_exactly tree_10_20_30 25).
    exact (proj1 tree_10_20_30_invariant).
Defined.

(** X2.  After [insert] of an absent key, [search] finds the key with the
    value given; after [insert] of a present key, [search] finds what it
    found before; and for every other key [search] finds what it found
    before.  Balance is not needed. *)
Theorem insert_then_search (root : RAVL_Node) (key : Z) (value : void_ptr) :
  bst root -> augmented root ->
  exists root',
    insert root key value = Some root' /\
    (~ In key (keys root) ->
     node_entry (search root' key) = Some (key, value)) /\
    (In key (keys root) ->
     node_entry (search root' key) = node_entry (search root key)) /\
    (forall k, k <> key ->
     node_entry (search root' k) = node_entry (search root k)).
Proof.
  intros Hb Ha.
  destruct (augmented_insert root key value Ha) as (root' & E & _).
  pose proof (bst_insert _ _ _ _ Hb E) as Hb'.
  pose proof (entries_insert _ _ _ _ Hb E) as He.
  exists root'. split; [exact E|]. split; [|split].
  - intros Hn. apply search_complete; [exact Hb'|]. apply He. auto.
  - intros Hin. apply search_agree; try assumption.
    intros v. rewrite He. tauto.
  - intros k Hk. apply search_agree; try assumption.
    intros v. rewrite He. intuition congruence.
Qed.

Lemma insert_then_search_witness :
  bst tree_right_left_heavy /\ augmented tree_right_left_heavy /\
  exists root',
    insert tree_right_left_heavy 17 7 = Some root' /\
    (~ In 17 (keys tree_right_left_heavy) ->
     node_entry (search root' 17) = Some (17, 7)) /\
    (In 17 (keys tree_right_left_heavy) ->
     node_entry (search root' 17)
     = node_entry (search tree_right_left_heavy 17)) /\
    (forall k, k <> 17 ->
     node_entry (search root' k)
     = node_entry (search tree_right_left_heavy k)).
Proof.
  pose proof tree_right_left_heavy_invariant as (Hb & _ & Ha).
  split; [exact Hb|]. split; [exact Ha|].
  apply (insert_then_search tree_right_left_heavy 17 7 Hb Ha).
Defined.

(** X3.  [delete] of the key of a node with two children overwrites the key
    of that node with the key of its successor and leaves the value of the
    node in place: afterwards [search] finds the successor's key bound to
    the value of the deleted key, whatever value the successor carried. *)
Theorem delete_two_children_rebinds_successor
  (k : Z) (v : void_ptr) (h s : Z) (l r : RAVL_Node) :
  bst (Node k v h s l r) -> l <> NULL -> r <> NULL ->
  exists tk tv,
    node_entry (successor (Node k v h s l r)) = Some (tk, tv) /\
    node_entry (search (delete (Node k v h s l r) k) tk) = Some (tk, v).
Proof.
  intros Hb Hl Hr.
  destruct l as [|lk lv lh ls ll lr]; [contradiction|].
  destruct r as [|rk rv rh rs rl rr]; [contradiction|].
  destruct (successor_loop_first rk rv rh rs rl rr)
    as (tk & tv & th & ts & tr & rest & E & _).
  exists tk, tv. split.
  - unfold successor. rewrite E. reflexivity.
  - apply search_complete; [apply bst_delete, Hb|].
    cbn [delete]. rewrite Z.ltb_irrefl.
    destruct (Z.gtb_spec k k); [lia|].
    unfold successor. rewrite E, entries_delete_balance.
    remember (Node lk lv lh ls ll lr) as L.
    remember (delete (Node rk rv rh rs rl rr) tk) as R.
    cbn [entries]. apply in_or_app. right. left. reflexivity.
Qed.

Lemma delete_two_children_rebinds_successor_witness :
  bst (Node 10 1 2 3 (Node 5 2 1 1 NULL NULL) (Node 20 3 1 1 NULL NULL)) /\
  Node 5 2 1 1 NULL NULL <> NULL /\ Node 20 3 1 1 NULL NULL <> NULL /\
  exists tk tv,
    node_entry
      (successor
         (Node 10 1 2 3 (Node 5 2 1 1 NULL NULL) (Node 20 3 1 1 NULL NULL)))
    = Some (tk, tv) /\
    node_entry
      (search
         (delete
            (Node 10 1 2 3 (Node 5 2 1 1 NULL NULL) (Node 20 3 1 1 NULL NULL))
            10) tk)
    = Some (tk, 1).
Proof.
  assert (Hb : bst (Node 10 1 2 3 (Node 5 2 1 1 NULL NULL)
                         (Node 20 3 1 1 NULL NULL)))
    by (cbn; repeat split; repeat constructor; lia).
  assert (H1 : Node 5 2 1 1 NULL NULL <> NULL) by discriminate.
  assert (H2 : Node 20 3 1 1 NULL NULL <> NULL) by discriminate.
  split; [exact Hb|]. split; [exact H1|]. split; [exact H2|].
  apply (delete_two_children_rebinds_successor 10 1 2 3 _ _ Hb H1 H2).
Defined.

(** X4.  On any search tree with exact sizes, balanced or not, [delete]
    removes the key from the sequence of keys and nothing else, keeps the
    order and the exact sizes and heights, leaves a tree in which [search]
    does not find the key, and takes one off the size exactly when the key
    was present. *)
Theorem delete_removes_key (root : RAVL_Node) (key : Z) :
  bst root -> augmented root ->
  keys (delete root key) = del key (keys root) /\
  bst (delete root key) /\
  augmented (delete root key) /\
  search (delete root key) key = NULL /\
  size (delete root key)
  = size root - (if in_dec Z.eq_dec key (keys root) then 1 else 0).
Proof.
  intros Hb Ha.
  pose proof (keys_delete root key Hb) as K.
  pose proof (augmented_delete root key Ha) as Ha'.
  split; [exact K|]. split; [apply bst_delete, Hb|]. split; [exact Ha'|].
  split.
  - apply search_absent. rewrite K, in_del. tauto.
  - rewrite (size_length _ Ha'), (size_length _ Ha), K.
    destruct (in_dec Z.eq_dec key (keys root)) as [Hin|Hn].
    + apply bst_sorted in Hb.
      pose proof (length_del_present key (keys root) Hb Hin). lia.
    + rewrite del_absent by assumption. lia.
Qed.

Lemma delete_removes_key_witness :
  bst tree_right_right_heavy /\ augmented tree_right_right_heavy /\
  (keys (delete tree_right_right_heavy 3)
   = del 3 (keys tree_right_right_heavy) /\
   bst (delete tree_right_right_heavy 3) /\
   augmented (delete tree_right_right_heavy 3) /\
   search (delete tree_right_right_heavy 3) 3 = NULL /\
   size (delete tree_right_right_heavy 3)
   = size tree_right_right_heavy
     - (if in_dec Z.eq_dec 3 (keys tree_right_right_heavy) then 1 else 0)).
Proof.
  pose proof tree_right_right_heavy_invariant as (Hb & _ & Ha).
  split; [exact Hb|]. split; [exact Ha|].
  apply (delete_removes_key tree_right_right_heavy 3 Hb Ha).
Defined.

(** X5.  On any search tree with exact sizes, balanced or not, [insert]
    returns a tree whose sequence of keys is the sorted insertion of the key,
    keeps the order and the exact sizes and heights, and adds one to the size
    exactly when the key was absent. *)
Theorem insert_adds_key (root : RAVL_Node) (key : Z) (value : void_ptr) :
  bst root -> augmented root ->
  exists root',
    insert root key value = Some root' /\
    keys root' = ins key (keys root) /\
    bst root' /\ augmented root' /\
    size root'
    = size root + (if in_dec Z.eq_dec key (keys root) then 0 else 1).
Proof.
  intros Hb Ha.
  destruct (augmented_insert root key value Ha) as (root' & E & Ha').
  pose proof (keys_insert _ _ _ _ Hb E) as K.
  exists root'. split; [exact E|]. split; [exact K|].
  split; [eapply bst_insert; eassumption|]. split; [exact Ha'|].
  rewrite (size_length _ Ha'), (size_length _ Ha), K.
  destruct (in_dec Z.eq_dec key (keys root)) as [Hin|Hn].
  - rewrite ins_present; [lia| |exact Hin]. apply bst_sorted, Hb.
  - rewrite length_ins_absent by assumption. lia.
Qed.

Lemma insert_adds_key_witness :
  bst tree_10_20_30 /\ augmented tree_10_20_30 /\
  exists root',
    insert tree_10_20_30 15 9 = Some root' /\
    keys root' = ins 15 (keys tree_10_20_30) /\
    bst root' /\ augmented root' /\
    size root'
    = size tree_10_20_30
      + (if in_dec Z.eq_dec 15 (keys tree_10_20_30) then 0 else 1).
Proof.
  pose proof tree_10_20_30_invariant as (Hb & _ & Ha).
  split; [exact Hb|]. split; [exact Ha|].
  apply (insert_adds_key tree_10_20_30 15 9 Hb Ha).
Defined.

(** ** Balance under [insert], and runs of operations *)

(** X6.  [insert] on a tree that satisfies every invariant returns a tree
    that satisfies every invariant, of the same height or one level higher. *)
Theorem insert_preserves_invariant
  (root : RAVL_Node) (key : Z) (value : void_ptr) :
  RAVL_invariant root ->
  exists root',
    insert root key value = Some root' /\
    RAVL_invariant root' /\
    (height root' = height root \/ height root' = height root + 1).
Proof.
  intros (Hb & Hbal & Ha).
  destruct (augmented_insert root key value Ha) as (root' & E & Ha').
  destruct (insert_balanced _ _ _ _ Ha Hbal E) as (Hbal' & Hh & _).
  exists root'. split; [exact E|]. split; [|exact Hh].
  split; [eapply bst_insert; eassumption|]. split; assumption.
Qed.

Lemma insert_preserves_invariant_witness :
  RAVL_invariant tree_right_right_heavy /\
  exists root',
    insert tree_right_right_heavy 50 0 = Some root' /\
    RAVL_invariant root' /\
    (height root' = height tree_right_right_heavy \/
     height root' = height tree_right_right_heavy + 1).
Proof.
  split; [exact tree_right_right_heavy_invariant|].
  apply (insert_preserves_invariant tree_right_right_heavy 50 0).
  exact tree_right_right_heavy_invariant.
Defined.

(** X7.  Inserting any list of key-value pairs, one after the other, into the
    empty tree gives a tree that satisfies every invariant, balance
    included. *)
Theorem insertions_build_balanced_tree (kvs : list (Z * void_ptr)) :
  exists root,
    run (map (fun kv => Insert (fst kv) (snd kv)) kvs) NULL = Some root /\
    RAVL_invariant root.
Proof.
  apply run_inserts_invariant.
  - apply Forall_forall. intros o Ho. apply in_map_iff in Ho.
    destruct Ho as (kv & <- & _). eauto.
  - repeat split.
Qed.

Lemma run_keys ops :
  forall root, bst root -> augmented root ->
  exists root',
    run ops root = Some root' /\
    keys root' = fold_left apply_keys ops (keys root) /\
    bst root' /\ augmented root'.
Proof.
  induction ops as [|o ops IH]; intros root Hb Ha.
  - exists root. auto.
  - cbn [run fold_left]. destruct o as [k v|k]; cbn [apply_operation apply_keys].
    + destruct (augmented_insert root k v Ha) as (root1 & E & Ha1).
      rewrite E, <- (keys_insert _ _ _ _ Hb E).
      apply IH; [eapply bst_insert; eassumption|exact Ha1].
    + rewrite <- (keys_delete root k Hb).
      apply IH; [apply bst_delete|apply augmented_delete]; assumption.
Qed.

(** X8.  A run of insertions and deletions from the empty tree implements a
    sorted list without duplicates: the keys of the tree, in order, are the
    list obtained by inserting and removing the same keys in a sorted list,
    and the size of the root is the length of that list. *)
Theorem run_refines_sorted_list (ops : list operation) :
  exists root,
    run ops NULL = Some root /\
    keys root = fold_left apply_keys ops [] /\
    sorted (keys root) /\
    size root = Z.of_nat (length (fold_left apply_keys ops [])).
Proof.
  destruct (run_keys ops NULL I I) as (root & E & K & Hb & Ha).
  exists root. split; [exact E|]. split; [exact K|].
  split; [apply bst_sorted, Hb|].
  rewrite (size_length _ Ha), K. reflexivity.
Qed.

(** ** Rotations and [successor] *)

(** X9.  None of the four rotations adds, drops or reorders a binding. *)
Theorem rotations_keep_bindings (node : RAVL_Node) :
  entries (rightRotation node) = entries node /\
  entries (leftRotation node) = entries node /\
  entries (rightLeftRotation node) = entries node /\
  entries (leftRightRotation node) = entries node.
Proof.
  repeat split.
  - apply entries_rightRotation.
  - apply entries_leftRotation.
  - apply entries_rightLeftRotation.
  - apply entries_leftRightRotation.
Qed.

(** X10.  On a node with exact heights and sizes the two single rotations
    undo each other: a right rotation (which needs a left child) followed by
    a left rotation gives the node back, and the other way round. *)
Theorem single_rotations_inverse (node : RAVL_Node) :
  augmented node ->
  (node_left node <> NULL -> leftRotation (rightRotation node) = node) /\
  (node_right node <> NULL -> rightRotation (leftRotation node) = node).
Proof.
  intros Ha. split; intros Hc.
  - destruct node as [|k v h s [|lk lv lh ls ll lr] r];
      try (cbn in Hc; contradiction).
    destruct Ha as (-> & -> & (-> & -> & _) & _).
    unfold rightRotation. rewrite !update_Node.
    unfold leftRotation. rewrite !update_Node.
    cbn [height size]. reflexivity.
  - destruct node as [|k v h s l [|rk rv rh rs rl rr]];
      try (cbn in Hc; contradiction).
    destruct Ha as (-> & -> & _ & (-> & -> & _)).
    unfold leftRotation. rewrite !update_Node.
    unfold rightRotation. rewrite !update_Node.
    cbn [height size]. reflexivity.
Qed.

Lemma single_rotations_inverse_witness :
  augmented tree_10_20_30 /\
  ((node_left tree_10_20_30 <> NULL ->
    leftRotation (rightRotation tree_10_20_30) = tree_10_20_30) /\
   (node_right tree_10_20_30 <> NULL ->
    rightRotation (leftRotation tree_10_20_30) = tree_10_20_30)).
Proof.
  pose proof tree_10_20_30_invariant as (_ & _ & Ha).
  split; [exact Ha|].
  apply (single_rotations_inverse tree_10_20_30 Ha).
Defined.

(** X11.  [successor] returns the null pointer exactly when the node has no
    right child; in a search tree, when it returns a node, that node holds
    the smallest key of the subtree that is greater than the key of the
    node. *)
Theorem successor_is_next_key (node : RAVL_Node) :
  bst node ->
  (successor node = NULL <-> node_right node = NULL) /\
  (forall k m,
     node_key node = Some k -> node_key (successor node) = Some m ->
     k < m /\ In m (keys node) /\
     forall x, In x (keys node) -> k < x -> m <= x).
Proof.
  intros Hb.
  destruct node as [|k v h s l r].
  { split; [tauto|]. intros k m [=]. }
  destruct r as [|rk rv rh rs rl rr].
  { split; [tauto|]. intros k' m _ [=]. }
  pose proof (successor_two_children k v h s l rk rv rh rs rl rr) as Hne.
  split.
  { split; [intros E; contradiction|intros [=]]. }
  intros k' m [= <-]. unfold successor.
  destruct (successor_loop_first rk rv rh rs rl rr)
    as (tk & tv & th & ts & tr & rest & E & K).
  rewrite E. intros [= <-].
  destruct Hb as (Hlk & Hkr & _ & Hbr).
  apply bst_sorted in Hbr. rewrite K in Hbr, Hkr.
  inversion Hbr as [|? ? _ Hrest]; subst.
  inversion Hkr as [|? ? Hktk _]; subst.
  rewrite Forall_forall in Hlk, Hrest.
  remember (Node rk rv rh rs rl rr) as R.
  cbn [keys]. rewrite K.
  split; [exact Hktk|]. split.
  - apply in_or_app. right. right. left. reflexivity.
  - intros x Hx Hkx. apply in_app_or in Hx.
    destruct Hx as [Hx|[Hx|[Hx|Hx]]].
    + apply Hlk in Hx. lia.
    + lia.
    + lia.
    + apply Hrest in Hx. lia.
Qed.

Lemma successor_is_next_key_witness :
  bst tree_right_left_heavy /\
  ((successor tree_right_left_heavy = NULL
    <-> node_right tree_right_left_heavy = NULL) /\
   (forall k m,
      node_key tree_right_left_heavy = Some k ->
      node_key (successor tree_right_left_heavy) = Some m ->
      k < m /\ In m (keys tree_right_left_heavy) /\
      forall x, In x (keys tree_right_left_heavy) -> k < x -> m <= x)).
Proof.
  pose proof tree_right_left_heavy_invariant as (Hb & _ & _).
  split; [exact Hb|].
  apply (successor_is_next_key tree_right_left_heavy Hb).
Defined.

(** ** Order statistics, heights and diagnostics *)

Section MoreOrderStatistics.

Variable NOTIN : Z.

Lemma findRank_nth_error node :
  augmented node -> forall r, 1 <= r ->
  node_key (findRank node r) = nth_error (keys node) (Z.to_nat (r - 1)).
Proof.
  induction node as [|k v h s l IHl rt IHr]; intros Ha r Hr.
  - cbn [findRank keys node_key]. destruct (Z.to_nat (r - 1)); reflexivity.
  - pose proof Ha as (_ & _ & Hal & Har).
    pose proof (size_length _ Hal) as Hsl.
    cbn [findRank keys].
    destruct (Z.eqb_spec (size l + 1) r) as [E|NE].
    + rewrite nth_error_app2 by lia.
      replace (Z.to_nat (r - 1) - length (keys l))%nat with 0%nat by lia.
      reflexivity.
    + destruct (Z.ltb_spec r (size l + 1)).
      * rewrite nth_error_app1 by lia. apply IHl; assumption.
      * rewrite nth_error_app2 by lia.
        replace (Z.to_nat (r - 1) - length (keys l))%nat
          with (S (Z.to_nat (r - (size l + 1) - 1))) by lia.
        cbn [nth_error]. apply IHr; [assumption|lia].
Qed.

Lemma count_below_app key A B :
  count_below key (A ++ B) = count_below key A + count_below key B.
Proof.
  unfold count_below. rewrite filter_app, length_app. lia.
Qed.

Lemma count_below_cons key x A :
  count_below key (x :: A)
  = (if x <? key then 1 else 0) + count_below key A.
Proof.
  unfold count_below. cbn [filter].
  destruct (x <? key); cbn [length]; lia.
Qed.

Lemma count_below_all key A :
  Forall (fun x => x < key) A -> count_below key A = Z.of_nat (length A).
Proof.
  induction 1 as [|x A Hx HA IH]; [reflexivity|].
  rewrite count_below_cons, IH.
  destruct (Z.ltb_spec x key); [|lia]. cbn [length]. lia.
Qed.

Lemma count_below_none key A :
  Forall (fun x => key <= x) A -> count_below key A = 0.
Proof.
  induction 1 as [|x A Hx HA IH]; [reflexivity|].
  rewrite count_below_cons, IH.
  destruct (Z.ltb_spec x key); lia.
Qed.

Lemma rank_count node key :
  bst node -> augmented node ->
  rank NOTIN node key
  = count_below key (keys node)
    + (if in_dec Z.eq_dec key (keys node) then 1 else NOTIN).
Proof.
  induction node as [|k v h s l IHl r IHr]; intros Hb Ha.
  - cbn [rank keys]. destruct (in_dec Z.eq_dec key []) as [[]|_].
    reflexivity.
  - destruct Hb as (Hlk & Hkr & Hbl & Hbr).
    pose proof Ha as (_ & _ & Hal & Har).
    pose proof (size_length _ Hal) as Hsl.
    cbn [rank keys].
    rewrite count_below_app, count_below_cons.
    assert (Hin : In key (keys l ++ k :: keys r) <->
                  In key (keys l) \/ k = key \/ In key (keys r))
      by (rewrite in_app_iff; reflexivity).
    rewrite Forall_forall in Hlk, Hkr.
    destruct (Z.eqb_spec k key) as [->|Hne].
    + rewrite (count_below_all key (keys l))
        by (apply Forall_forall; exact Hlk).
      rewrite (count_below_none key (keys r))
        by (apply Forall_forall; intros x Hx; apply Hkr in Hx; lia).
      rewrite Z.ltb_irrefl.
      destruct (in_dec Z.eq_dec key (keys l ++ key :: keys r)) as [_|Hn];
        [lia|].
      exfalso. apply Hn, Hin. auto.
    + destruct (Z.gtb_spec key k) as [Hgt|Hle].
      * rewrite (IHr Hbr Har).
        rewrite (count_below_all key (keys l))
          by (apply Forall_forall; intros x Hx; apply Hlk in Hx; lia).
        destruct (Z.ltb_spec k key); [|lia].
        destruct (in_dec Z.eq_dec key (keys r)) as [Hr|Hr],
                 (in_dec Z.eq_dec key (keys l ++ k :: keys r)) as [Ht|Ht];
          try lia.
        -- exfalso. apply Ht, Hin. auto.
        -- exfalso. apply Hin in Ht. destruct Ht as [Ht|[Ht|Ht]]; auto.
           apply Hlk in Ht. lia.
      * rewrite (IHl Hbl Hal).
        rewrite (count_below_none key (keys r))
          by (apply Forall_forall; intros x Hx; apply Hkr in Hx; lia).
        destruct (Z.ltb_spec k key); [lia|].
        destruct (in_dec Z.eq_dec key (keys l)) as [Hl|Hl],
                 (in_dec Z.eq_dec key (keys l ++ k :: keys r)) as [Ht|Ht];
          try lia.
        -- exfalso. apply Ht, Hin. auto.
        -- exfalso. apply Hin in Ht. destruct Ht as [Ht|[Ht|Ht]]; auto.
           apply Hkr in Ht. lia.
Qed.

End MoreOrderStatistics.

(** X12.  In a tree with exact sizes, [findRank] at a rank [r >= 1] returns
    the node that holds the [r]-th key of the tree in order, and the null
    pointer when the tree has fewer than [r] keys: [findRank] enumerates the
    in-order traversal. *)
Theorem findRank_is_nth_key (root : RAVL_Node) (r : Z) :
  augmented root -> 1 <= r ->
  node_key (findRank root r) = nth_error (keys root) (Z.to_nat (r - 1)).
Proof.
  intros Ha Hr. apply findRank_nth_error; assumption.
Qed.

Lemma findRank_is_nth_key_witness :
  augmented tree_right_right_heavy /\ 1 <= 6 /\
  node_key (findRank tree_right_right_heavy 6)
  = nth_error (keys tree_right_right_heavy) (Z.to_nat (6 - 1)).
Proof.
  pose proof tree_right_right_heavy_invariant as (_ & _ & Ha).
  assert (H : 1 <= 6) by lia.
  split; [exact Ha|]. split; [exact H|].
  apply (findRank_is_nth_key tree_right_right_heavy 6 Ha H).
Defined.

(** X13.  In a search tree with exact sizes, [rank] of a key is the number
    of keys smaller than it, plus 1 when the key is present and plus [NOTIN]
    when it is absent. *)
Theorem rank_counts_smaller_keys (NOTIN : Z) (root : RAVL_Node) (key : Z) :
  bst root -> augmented root ->
  rank NOTIN root key
  = count_below key (keys root)
    + (if in_dec Z.eq_dec key (keys root) then 1 else NOTIN).
Proof.
  intros Hb Ha. apply rank_count; assumption.
Qed.

Lemma rank_counts_smaller_keys_witness :
  bst tree_right_right_heavy /\ augmented tree_right_right_heavy /\
  rank (-1) tree_right_right_heavy 17
  = count_below 17 (keys tree_right_right_heavy)
    + (if in_dec Z.eq_dec 17 (keys tree_right_right_heavy) then 1 else -1).
Proof.
  pose proof tree_right_right_heavy_invariant as (Hb & _ & Ha).
  split; [exact Hb|]. split; [exact Ha|].
  apply (rank_counts_smaller_keys (-1) tree_right_right_heavy 17 Hb Ha).
Defined.

(** X14.  A tree that is balanced and has exact heights and sizes has at
    least [2 ^ (height / 2) - 1] nodes: its height is at most twice the
    logarithm of its size plus one, which is what makes the descent of
    [search], [insert], [delete], [rank] and [findRank] logarithmic. *)
Theorem height_logarithmic (root : RAVL_Node) :
  balanced root -> augmented root ->
  2 ^ (height root / 2) <= size root + 1.
Proof.
  induction root as [|k v h s l IHl r IHr]; intros Hb Ha.
  - cbn. lia.
  - apply balanced_Node in Hb as (Hbf & Hbl & Hbr).
    destruct Ha as (Hs & Hh & Hal & Har).
    specialize (IHl Hbl Hal). specialize (IHr Hbr Har).
    pose proof (height_nonneg _ Hal). pose proof (height_nonneg _ Har).
    pose proof (size_nonneg _ Hal). pose proof (size_nonneg _ Har).
    cbn [height size].
    destruct (Z.eq_dec h 1) as [->|Hh1].
    + change (1 / 2) with 0. rewrite Z.pow_0_r. lia.
    + assert (Hdiv : h / 2 = (h - 2) / 2 + 1).
      { replace h with ((h - 2) + 1 * 2) at 1 by lia.
        apply Z.div_add. lia. }
      assert (Hd0 : 0 <= (h - 2) / 2) by (apply Z.div_pos; lia).
      assert (Hl2 : 2 ^ ((h - 2) / 2) <= 2 ^ (height l / 2)).
      { apply Z.pow_le_mono_r; [lia|]. apply Z.div_le_mono; lia. }
      assert (Hr2 : 2 ^ ((h - 2) / 2) <= 2 ^ (height r / 2)).
      { apply Z.pow_le_mono_r; [lia|]. apply Z.div_le_mono; lia. }
      rewrite Hdiv, Z.pow_add_r, Z.pow_1_r by lia. lia.
Qed.

Lemma height_logarithmic_witness :
  balanced tree_right_right_heavy /\ augmented tree_right_right_heavy /\
  2 ^ (height tree_right_right_heavy / 2) <= size tree_right_right_heavy + 1.
Proof.
  pose proof tree_right_right_heavy_invariant as (_ & Hb & Ha).
  split; [exact Hb|]. split; [exact Ha|].
  apply (height_logarithmic tree_right_right_heavy Hb Ha).
Defined.

Lemma print_keys node offset :
  map line_key (printTreeInorder_ node offset) = rev (keys node).
Proof.
  revert offset.
  induction node as [|k v h s l IHl r IHr]; intros offset; [reflexivity|].
  cbn [printTreeInorder_ keys].
  rewrite map_app, rev_app_distr. cbn [map line_key rev].
  rewrite IHl, IHr, <- app_assoc. reflexivity.
Qed.

(** X15.  [printTreeInorder] prints one line per node, and the keys it prints
    are the keys of the tree from the last in order to the first. *)
Theorem printTreeInorder_reverse_order (root : RAVL_Node) :
  map line_key (printTreeInorder root) = rev (keys root) /\
  length (printTreeInorder root) = length (keys root).
Proof.
  pose proof (print_keys root 0) as K. split; [exact K|].
  apply (f_equal (@length Z)) in K.
  rewrite length_map, length_rev in K. exact K.
Qed.

Lemma print_offsets node :
  augmented node -> forall offset,
  Forall (fun ln => offset <= line_offset ln < offset + height node)
         (printTreeInorder_ node offset).
Proof.
  induction node as [|k v h s l IHl r IHr]; intros Ha offset;
    [constructor|].
  destruct Ha as (_ & -> & Hal & Har).
  pose proof (height_nonneg _ Hal). pose proof (height_nonneg _ Har).
  cbn [printTreeInorder_ height].
  apply Forall_app. split; [|constructor].
  - eapply Forall_impl; [|apply (IHr Har (offset + 1))].
    cbn beta. intros ln Hln. lia.
  - cbn [line_offset]. lia.
  - eapply Forall_impl; [|apply (IHl Hal (offset + 1))].
    cbn beta. intros ln Hln. lia.
Qed.

(** X16.  In a tree with exact heights, every line that [printTreeInorder]
    prints is indented by at least 0 and by less than the height of the
    root. *)
Theorem printTreeInorder_offsets (root : RAVL_Node) :
  augmented root ->
  Forall (fun ln => 0 <= line_offset ln < height root)
         (printTreeInorder root).
Proof.
  intros Ha. apply (print_offsets root Ha 0).
Qed.

Lemma printTreeInorder_offsets_witness :
  augmented tree_right_right_heavy /\
  Forall (fun ln => 0 <= line_offset ln < height tree_right_right_heavy)
         (printTreeInorder tree_right_right_heavy).
Proof.
  pose proof tree_right_right_heavy_invariant as (_ & _ & Ha).
  split; [exact Ha|].
  apply (printTreeInorder_offsets tree_right_right_heavy Ha).
Defined.

(** X17.  In a tree whose cached fields are exact, [size] returns the number
    of nodes of the tree and [height] the number of nodes on its longest
    path from the root down, as the comments of the two accessors say. *)
Theorem size_and_height_meaning (root : RAVL_Node) :
  augmented root ->
  size root = Z.of_nat (length (keys root)) /\
  height root = longest_path root /\
  height root <= size root.
Proof.
  intros Ha. split; [apply size_length, Ha|].
  split; [|apply height_le_size, Ha].
  induction root as [|k v h s l IHl r IHr]; [reflexivity|].
  destruct Ha as (_ & -> & Hal & Har).
  cbn [height longest_path]. rewrite <- IHl, <- IHr by assumption.
  reflexivity.
Qed.

Lemma size_and_height_meaning_witness :
  augmented tree_right_right_heavy /\
  (size tree_right_right_heavy
   = Z.of_nat (length (keys tree_right_right_heavy)) /\
   height tree_right_right_heavy = longest_path tree_right_right_heavy /\
   height tree_right_right_heavy <= size tree_right_right_heavy).
Proof.
  pose proof tree_right_right_heavy_invariant as (_ & _ & Ha).
  split; [exact Ha|].
  apply (size_and_height_meaning tree_right_right_heavy Ha).
Defined.

(** X18.  The left-heavy rebalancing of [delete] is right: when the node,
    once updated, has balance factor 2 over balanced children with exact
    heights, lines 323-335 return a balanced tree with exact heights, as
    high as the left child or one level higher. *)
Theorem delete_balance_left_heavy
  (k : Z) (v : void_ptr) (h s : Z) (l r : RAVL_Node) :
  augmented l -> augmented r -> balanced l -> balanced r ->
  height l - height r = 2 ->
  balanced (delete_balance (Node k v h s l r)) /\
  augmented (delete_balance (Node k v h s l r)) /\
  (height (delete_balance (Node k v h s l r)) = height l \/
   height (delete_balance (Node k v h s l r)) = height l + 1).
Proof.
  intros Hal Har Hbl Hbr Hbf.
  split; [|split; [apply augmented_delete_balance; assumption|]].
  all: pose proof (height_nonneg _ Har) as Hr0.
  all: destruct l as [|lk lv lh ls ll lr]; [cbn [height] in Hbf; lia|].
  all: destruct Hal as (_ & Hlh & Hall & Halr).
  all: apply balanced_Node in Hbl as (Hbfl & Hbll & Hblr).
  all: pose proof (height_nonneg _ Hall) as Hll0.
  all: pose proof (height_nonneg _ Halr) as Hlr0.
  all: cbn [height] in Hbf.
  all: unfold delete_balance; rewrite update_Node, !balanceFactor_Node.
  all: cbn [node_left node_right height].
  all: rewrite balanceFactor_Node.
  all: destruct (Z.gtb_spec (lh - height r) 1) as [_|]; [|lia].
  all: destruct (Z.geb_spec (height ll - height lr) 0) as [Hge|Hlt];
    cbn [andb].
  - unfold rightRotation.
    repeat (rewrite ?update_Node, ?balanced_Node).
    cbn [height]. repeat split; auto; lia.
  - destruct (Z.ltb_spec (height ll - height lr) 0); [|lia].
    destruct lr as [|mk mv mh ms ml mr]; [cbn [height] in *; lia|].
    destruct Halr as (_ & Hmh & _ & _).
    apply balanced_Node in Hblr as (Hbm & Hbml & Hbmr).
    cbn [height] in *.
    unfold leftRightRotation, leftRotation, rightRotation.
    repeat (rewrite ?update_Node, ?balanced_Node).
    cbn [height]. repeat split; auto; lia.
  - unfold rightRotation. rewrite !update_Node. cbn [height]. lia.
  - destruct (Z.ltb_spec (height ll - height lr) 0); [|lia].
    destruct lr as [|mk mv mh ms ml mr]; [cbn [height] in *; lia|].
    destruct Halr as (_ & Hmh & _ & _).
    apply balanced_Node in Hblr as (Hbm & Hbml & Hbmr).
    cbn [height] in *.
    unfold leftRightRotation, leftRotation, rightRotation.
    rewrite !update_Node. cbn [height]. lia.
Qed.

Lemma delete_balance_left_heavy_witness :
  augmented (Node 5 0 2 2 (Node 3 0 1 1 NULL NULL) NULL) /\
  augmented NULL /\
  balanced (Node 5 0 2 2 (Node 3 0 1 1 NULL NULL) NULL) /\
  balanced NULL /\
  height (Node 5 0 2 2 (Node 3 0 1 1 NULL NULL) NULL) - height NULL = 2 /\
  (balanced
     (delete_balance
        (Node 10 0 3 4 (Node 5 0 2 2 (Node 3 0 1 1 NULL NULL) NULL) NULL)) /\
   augmented
     (delete_balance
        (Node 10 0 3 4 (Node 5 0 2 2 (Node 3 0 1 1 NULL NULL) NULL) NULL)) /\
   (height
      (delete_balance
         (Node 10 0 3 4 (Node 5 0 2 2 (Node 3 0 1 1 NULL NULL) NULL) NULL))
    = height (Node 5 0 2 2 (Node 3 0 1 1 NULL NULL) NULL) \/
    height
      (delete_balance
         (Node 10 0 3 4 (Node 5 0 2 2 (Node 3 0 1 1 NULL NULL) NULL) NULL))
    = height (Node 5 0 2 2 (Node 3 0 1 1 NULL NULL) NULL) + 1)).
Proof.
  assert (Hal : augmented (Node 5 0 2 2 (Node 3 0 1 1 NULL NULL) NULL))
    by (cbn; repeat split; reflexivity).
  assert (Hbl : balanced (Node 5 0 2 2 (Node 3 0 1 1 NULL NULL) NULL))
    by (cbn; repeat split; lia).
  assert (Hh : height (Node 5 0 2 2 (Node 3 0 1 1 NULL NULL) NULL)
               - height NULL = 2) by reflexivity.
  split; [exact Hal|]. split; [exact I|]. split; [exact Hbl|].
  split; [exact I|]. split; [exact Hh|].
  apply (delete_balance_left_heavy 10 0 3 4 _ NULL Hal I Hbl I Hh).
Defined.

(** ** The bindings that [delete] keeps *)

Section DeleteBindings.

Lemma rebound_key_left key k v h s l r :
  key < k -> rebound_key (Node k v h s l r) key = rebound_key l key.
Proof.
  intros Hlt. unfold rebound_key. cbn [search].
  destruct (Z.eqb_spec k key); [lia|].
  destruct (Z.ltb_spec k key); [lia|]. reflexivity.
Qed.

Lemma rebound_key_right key k v h s l r :
  k < key -> rebound_key (Node k v h s l r) key = rebound_key r key.
Proof.
  intros Hlt. unfold rebound_key. cbn [search].
  destruct (Z.eqb_spec k key); [lia|].
  destruct (Z.ltb_spec k key); [|lia]. reflexivity.
Qed.

(** [search] for the first key of a search tree stops on the node the loop
    of [successor] stops on, which has no left child. *)
Lemma search_first node tk tv th ts tr :
  bst node -> successor_loop node = Node tk tv th ts NULL tr ->
  search node tk = Node tk tv th ts NULL tr.
Proof.
  induction node as [|k v h s l IHl r _]; [discriminate|].
  intros (Hlk & _ & Hbl & _).
  destruct l as [|lk lv lh ls ll lr].
  - cbn [successor_loop]. intros [= -> -> -> -> ->].
    cbn [search]. rewrite Z.eqb_refl. reflexivity.
  - change (successor_loop (Node k v h s (Node lk lv lh ls ll lr) r))
      with (successor_loop (Node lk lv lh ls ll lr)).
    intros E.
    destruct (successor_loop_first lk lv lh ls ll lr)
      as (tk' & tv' & th' & ts' & tr' & rest & E' & K).
    rewrite E in E'. injection E' as <- <- <- <- <-.
    rewrite K in Hlk. inversion Hlk as [|? ? Hlt _]; subst.
    cbn [search].
    destruct (Z.eqb_spec k tk); [lia|].
    destruct (Z.ltb_spec k tk); [lia|].
    apply IHl; assumption.
Qed.

Lemma entries_delete node :
  bst node -> forall key e,
  fst e <> key -> Some (fst e) <> rebound_key node key ->
  (In e (entries (delete node key)) <-> In e (entries node)).
Proof.
  induction node as [|k v h s l IHl r IHr]; intros Hb key e Hne Hrb;
    [reflexivity|].
  pose proof Hb as (Hlk & Hkr & Hbl & Hbr).
  cbn [delete].
  destruct (Z.ltb_spec key k) as [Hlt|Hge].
  - rewrite rebound_key_left in Hrb by assumption.
    rewrite entries_delete_balance. cbn [entries].
    rewrite !in_app_iff, (IHl Hbl key e Hne Hrb). reflexivity.
  - destruct (Z.gtb_spec key k) as [Hgt|Hle].
    + rewrite rebound_key_right in Hrb by lia.
      rewrite entries_delete_balance. cbn [entries].
      rewrite !in_app_iff. cbn [In].
      rewrite (IHr Hbr key e Hne Hrb). reflexivity.
    + assert (key = k) by lia. subst key.
      assert (Hek : (k, v) = e <-> False)
        by (split; [intros <-; apply Hne; reflexivity|tauto]).
      destruct l as [|lk lv lh ls ll lr], r as [|rk rv rh rs rl rr].
      * cbn. tauto.
      * rewrite entries_delete_balance.
        remember (Node rk rv rh rs rl rr) as R.
        cbn [entries app In]. tauto.
      * rewrite entries_delete_balance.
        remember (Node lk lv lh ls ll lr) as L.
        cbn [entries]. rewrite in_app_iff. cbn [In]. tauto.
      * unfold rebound_key in Hrb. cbn [search] in Hrb.
        rewrite Z.eqb_refl in Hrb.
        destruct (successor_loop_first rk rv rh rs rl rr)
          as (tk & tv & th & ts & tr & rest & E & _).
        unfold successor in *. rewrite E in *. cbn [node_key] in Hrb.
        rewrite entries_delete_balance.
        assert (Hr : In e (entries (delete (Node rk rv rh rs rl rr) tk)) <->
                     In e (entries (Node rk rv rh rs rl rr))).
        { apply (IHr Hbr); [congruence|].
          unfold rebound_key. rewrite (search_first _ _ _ _ _ _ Hbr E).
          cbv beta iota. discriminate. }
        remember (Node lk lv lh ls ll lr) as L.
        remember (Node rk rv rh rs rl rr) as R.
        cbn [entries]. rewrite !in_app_iff. cbn [In]. rewrite Hr.
        assert (Htk : (tk, v) = e <-> False)
          by (split; [intros <-; apply Hrb; reflexivity|tauto]).
        tauto.
Qed.

End DeleteBindings.

(** X19.  In a search tree, [delete] leaves [search] as it was for every key
    other than the deleted one and, when the node of the deleted key has two
    children, other than the key of its successor. *)
Theorem delete_keeps_other_bindings (root : RAVL_Node) (key k : Z) :
  bst root -> k <> key -> Some k <> rebound_key root key ->
  node_entry (search (delete root key) k) = node_entry (search root k).
Proof.
  intros Hb Hne Hrb.
  apply search_agree; [apply bst_delete, Hb|exact Hb|].
  intros v. apply entries_delete; assumption.
Qed.

Lemma delete_keeps_other_bindings_witness :
  bst tree_right_right_heavy /\ 15 <> 20 /\
  Some 15 <> rebound_key tree_right_right_heavy 20 /\
  node_entry (search (delete tree_right_right_heavy 20) 15)
  = node_entry (search tree_right_right_heavy 15).
Proof.
  pose proof tree_right_right_heavy_invariant as (Hb & _ & _).
  assert (H1 : 15 <> 20) by discriminate.
  assert (H2 : Some 15 <> rebound_key tree_right_right_heavy 20)
    by (intros H; vm_compute in H; discriminate H).
  split; [exact Hb|]. split; [exact H1|]. split; [exact H2|].
  apply (delete_keeps_other_bindings tree_right_right_heavy 20 15 Hb H1 H2).
Defined.
